(** * N5 Japanese Master: progressive unlock and mastery tracking

    A shallow embedding of the state-carrying part of the flashcard
    application ([App.tsx], [types.ts], [services/geminiService.ts]):
    the discovery engine ([getDiscoveredPool], [unlockedSets],
    [combinedDiscoveredPool]), the session builder ([startQuiz]), the answer
    evaluator ([handleAnswer], [nextQuestion], [resetToHome]) and the
    classifiers ([getStatus], [getProficiency]).

    Conventions.
    - A JavaScript [number] that holds a counter is a [Z]; array lengths and
      slice bounds are [nat].  Counters stay far below 2^53, where the
      floating-point representation of integers is exact.
    - A [Record<string, number>] is a [gmap string Z]; reading a missing key
      gives [None] (JavaScript's [undefined]).
    - [string[]] is [list string]; [Array.prototype.includes] is list
      membership.
    - The catalogs of [constants.ts] are parameters ([Catalogs]).
    - What the host decides is an argument of the handler it reaches: the
      order [Array.prototype.sort] leaves under the random comparator
      ([Shuffle]), the outcome of the request to the text service
      ([ApiResult]), and [JSON.parse] with [String.prototype.trim]
      ([JsonHost]). *)

From stdpp Require Import gmap strings list fin_maps.
From Stdlib Require Import ZArith Lia.

Local Open Scope string_scope.
Local Open Scope Z_scope.

(** ** types.ts *)

Inductive CharacterType :=
  | hiragana | katakana | kanji | vocabulary | general | grammar.

Inductive ProgressStatus := Not_started | In_progress | Completed.

Inductive ProficiencyLevel := PNone | Beginner | Intermediate | Advanced.

#[global] Instance CharacterType_eq_dec : EqDecision CharacterType.
Proof. solve_decision. Defined.

Record JapaneseChar := {
  id : string;
  char : string;
  romaji : string;
  meaning : option string;
  type : CharacterType;
  kunyomi : option string;
  onyomi : option string;
  sinoVietnamese : option string;
  exampleVocab : option string
}.

Record GrammarPoint := {
  g_id : string;
  title : string;
  structure : string;
  explanation : string;
  example_jp : string;
  example_en : string
}.

Record QuizState := {
  isActive : bool;
  currentIndex : Z;
  score : Z;
  questions : list JapaneseChar;
  mistakes : list string
}.

Record UserProgress := {
  masteredIds : list string;
  weakIds : gmap string Z;
  successCounts : gmap string Z
}.

Record MnemonicResponse := {
  character : string;
  mnemonic_text : string;
  exampleSentence : string;
  translation : string
}.

(** ** App.tsx: constants *)

Definition MASTERY_THRESHOLD : Z := 3.
Definition PROFICIENCY_INTERMEDIATE : Z := 5.
Definition PROFICIENCY_ADVANCED : Z := 8.
Definition INITIAL_INTRO_COUNT : nat := 10.

(** The four ordered catalogs imported from [./constants]. *)
Record Catalogs := {
  HIRAGANA : list JapaneseChar;
  KATAKANA : list JapaneseChar;
  KANJI_N5 : list JapaneseChar;
  VOCABULARY_N5 : list JapaneseChar
}.

(** ** JavaScript expressions used by the handlers *)

(** [x || 0] for [x : number | undefined]: [undefined] and [0] are falsy. *)
Definition orZero (x : option Z) : Z :=
  match x with
  | Some v => if bool_decide (v = 0) then 0 else v
  | None => 0
  end.

(** Truthiness of [x : number | undefined], as in [filter(c => weakIds[c.id])]. *)
Definition truthy (x : option Z) : bool :=
  match x with
  | Some v => negb (bool_decide (v = 0))
  | None => false
  end.

(** [ids.includes(x)] *)
Definition includes (ids : list string) (x : string) : bool :=
  bool_decide (x ∈ ids).

(** [a.slice(0, n)] for an integer [0 <= n]. *)
Definition slice0 {A} (n : nat) (a : list A) : list A := take n a.

(** ** Discovery engine *)

Definition getDiscoveredPool (progress : UserProgress)
    (fullPool : list JapaneseChar) : list JapaneseChar :=
  let categoryMasteredCount :=
    length (filter (λ c, includes (masteredIds progress) (id c) = true) fullPool) in
  let allowedCount := (INITIAL_INTRO_COUNT + categoryMasteredCount)%nat in
  slice0 (allowedCount `min` length fullPool) fullPool.

(** [unlockedSets[key]]; the object has the four script keys only, any other
    key reads [undefined]. *)
Definition unlockedSets (cat : Catalogs) (progress : UserProgress)
    (key : CharacterType) : option (list JapaneseChar) :=
  match key with
  | hiragana => Some (getDiscoveredPool progress (HIRAGANA cat))
  | katakana => Some (getDiscoveredPool progress (KATAKANA cat))
  | kanji => Some (getDiscoveredPool progress (KANJI_N5 cat))
  | vocabulary => Some (getDiscoveredPool progress (VOCABULARY_N5 cat))
  | general | grammar => None
  end.

Definition combinedDiscoveredPool (cat : Catalogs) (progress : UserProgress)
    : list JapaneseChar :=
  (getDiscoveredPool progress (HIRAGANA cat)
   ++ getDiscoveredPool progress (KATAKANA cat)
   ++ getDiscoveredPool progress (KANJI_N5 cat)
   ++ getDiscoveredPool progress (VOCABULARY_N5 cat))%list.

(** ** Component state of [App] *)

Inductive View :=
  | v_home | v_quiz | v_review | v_vocab_list | v_grammar_list
  | v_progress_overview.

Record App := {
  view : View;
  activeType : CharacterType;
  quiz : QuizState;
  progress : UserProgress;
  mnemonic : option MnemonicResponse;
  isProcessing : bool;
  selectedGrammar : option GrammarPoint;
  globalError : option string;
  hasKey : option bool
}.

(** What a handler does besides updating the component state. *)
Inductive Effect :=
  | Alert (message : string)
  | SetTimeout_nextQuestion (ms : Z)
  | ConsoleError (message : option string)
  | UncaughtTypeError.

(** The state setters of [useState]. *)
Definition setView (v : View) (s : App) : App :=
  {| view := v; activeType := activeType s; quiz := quiz s;
     progress := progress s; mnemonic := mnemonic s;
     isProcessing := isProcessing s; selectedGrammar := selectedGrammar s;
     globalError := globalError s; hasKey := hasKey s |}.

Definition setActiveType (t : CharacterType) (s : App) : App :=
  {| view := view s; activeType := t; quiz := quiz s;
     progress := progress s; mnemonic := mnemonic s;
     isProcessing := isProcessing s; selectedGrammar := selectedGrammar s;
     globalError := globalError s; hasKey := hasKey s |}.

(** [setQuiz(prev => f(prev))]; [setQuiz(q)] is [setQuiz (λ _, q)]. *)
Definition setQuiz (f : QuizState → QuizState) (s : App) : App :=
  {| view := view s; activeType := activeType s; quiz := f (quiz s);
     progress := progress s; mnemonic := mnemonic s;
     isProcessing := isProcessing s; selectedGrammar := selectedGrammar s;
     globalError := globalError s; hasKey := hasKey s |}.

Definition setProgress (f : UserProgress → UserProgress) (s : App) : App :=
  {| view := view s; activeType := activeType s; quiz := quiz s;
     progress := f (progress s); mnemonic := mnemonic s;
     isProcessing := isProcessing s; selectedGrammar := selectedGrammar s;
     globalError := globalError s; hasKey := hasKey s |}.

Definition setMnemonic (m : option MnemonicResponse) (s : App) : App :=
  {| view := view s; activeType := activeType s; quiz := quiz s;
     progress := progress s; mnemonic := m;
     isProcessing := isProcessing s; selectedGrammar := selectedGrammar s;
     globalError := globalError s; hasKey := hasKey s |}.

Definition setIsProcessing (b : bool) (s : App) : App :=
  {| view := view s; activeType := activeType s; quiz := quiz s;
     progress := progress s; mnemonic := mnemonic s;
     isProcessing := b; selectedGrammar := selectedGrammar s;
     globalError := globalError s; hasKey := hasKey s |}.

Definition setSelectedGrammar (g : option GrammarPoint) (s : App) : App :=
  {| view := view s; activeType := activeType s; quiz := quiz s;
     progress := progress s; mnemonic := mnemonic s;
     isProcessing := isProcessing s; selectedGrammar := g;
     globalError := globalError s; hasKey := hasKey s |}.

Definition setGlobalError (e : option string) (s : App) : App :=
  {| view := view s; activeType := activeType s; quiz := quiz s;
     progress := progress s; mnemonic := mnemonic s;
     isProcessing := isProcessing s; selectedGrammar := selectedGrammar s;
     globalError := e; hasKey := hasKey s |}.

Definition setHasKey (k : option bool) (s : App) : App :=
  {| view := view s; activeType := activeType s; quiz := quiz s;
     progress := progress s; mnemonic := mnemonic s;
     isProcessing := isProcessing s; selectedGrammar := selectedGrammar s;
     globalError := globalError s; hasKey := k |}.

(** The progress record when nothing is stored yet. *)
Definition emptyProgress : UserProgress :=
  {| masteredIds := []; weakIds := ∅; successCounts := ∅ |}.

Definition inactiveQuiz : QuizState :=
  {| isActive := false; currentIndex := 0; score := 0; questions := [];
     mistakes := [] |}.

(** The state of the first render, for a stored progress record [p]. *)
Definition initialApp (p : UserProgress) : App :=
  {| view := v_home; activeType := hiragana; quiz := inactiveQuiz;
     progress := p; mnemonic := None; isProcessing := false;
     selectedGrammar := None; globalError := None; hasKey := None |}.

(** ** Session builder *)

(** One run of [a.sort(() => Math.random() - 0.5)]: the order it leaves the
    array in is the host's choice; the array keeps its elements. *)
Record Shuffle := {
  permute : list JapaneseChar → list JapaneseChar;
  permute_perm : ∀ l, permute l ≡ₚ l
}.

Definition NO_MISTAKES_MESSAGE : string :=
  "No mistakes tracked in your active discovery set yet!".

(** The pool and the length [startQuiz] starts from; [None] when
    [unlockedSets[type]] is [undefined] and the spread throws. *)
Definition sessionSource (cat : Catalogs) (p : UserProgress)
    (type_ : CharacterType) : option (list JapaneseChar * nat) :=
  if decide (type_ = general) then Some (combinedDiscoveredPool cat p, 20%nat)
  else match unlockedSets cat p type_ with
       | Some pool => Some (pool, 10%nat)
       | None => None
       end.

Definition weakFilter (p : UserProgress) (pool : list JapaneseChar)
    : list JapaneseChar :=
  filter (λ c, truthy (weakIds p !! id c) = true) pool.

Definition freshQuiz (shuffled : list JapaneseChar) : QuizState :=
  {| isActive := true; currentIndex := 0; score := 0; questions := shuffled;
     mistakes := [] |}.

Definition startQuiz (cat : Catalogs) (rnd : Shuffle) (type_ : CharacterType)
    (reviewMistakes : bool) (s : App) : App * list Effect :=
  match sessionSource cat (progress s) type_ with
  | None => (s, [UncaughtTypeError])
  | Some (sessionPool, count) =>
      let sessionPool :=
        if reviewMistakes then weakFilter (progress s) sessionPool
        else sessionPool in
      if reviewMistakes && bool_decide (length sessionPool = 0%nat) then
        (s, [Alert NO_MISTAKES_MESSAGE])
      else
        let shuffled := slice0 count (permute rnd sessionPool) in
        (setMnemonic None
           (setView v_quiz
              (setActiveType type_ (setQuiz (λ _, freshQuiz shuffled) s))),
         [])
  end.

(** ** services/geminiService.ts *)

(** How a JavaScript block ends: with a value, or with a thrown error whose
    [message] is read by the handler. *)
Inductive Completion (A : Type) :=
  | Normal (a : A)
  | Throw (message : option string).
Arguments Normal {A} a.
Arguments Throw {A} message.

(** Outcome of [await ai.models.generateContent(...)], with the construction
    of the client before it: an error, or a response whose [text] may be
    absent. *)
Inductive ApiResult :=
  | ApiThrows (message : option string)
  | ApiResponse (text : option string).

(** Outcome of [JSON.parse]: a [SyntaxError], a falsy value ([null], [false],
    [0], the empty string), or another value, which the unchecked cast
    [as MnemonicResponse] passes on. *)
Inductive ParseResult :=
  | ParseThrows (message : option string)
  | ParseFalsy
  | ParseValue (v : MnemonicResponse).

Record JsonHost := {
  trim : string → string;
  JSON_parse : string → ParseResult
}.

(** The body of the [try] block of [getMnemonicForChar]. *)
Definition getMnemonic_try (js : JsonHost) (api : ApiResult)
    : Completion (option MnemonicResponse) :=
  match api with
  | ApiThrows m => Throw m
  | ApiResponse text =>
      match text with
      | Some t =>
          if bool_decide (t = EmptyString) then Normal None
          else match JSON_parse js (trim js t) with
               | ParseThrows m => Throw m
               | ParseFalsy => Normal None
               | ParseValue v => Normal (Some v)
               end
      | None => Normal None
      end
  end.

(** [try { ... } catch (error) { console.error(...); return null; }] *)
Definition getMnemonicForChar (js : JsonHost) (api : ApiResult)
    (c : JapaneseChar) : Completion (option MnemonicResponse) * list Effect :=
  match getMnemonic_try js api with
  | Normal r => (Normal r, [])
  | Throw m => (Normal None, [ConsoleError m])
  end.

(** ** Answer evaluator *)

(** [quiz.questions[quiz.currentIndex]] *)
Definition currentQuestion (s : App) : option JapaneseChar :=
  if currentIndex (quiz s) <? 0 then None
  else questions (quiz s) !! Z.to_nat (currentIndex (quiz s)).

Definition isMeaningQuestion (q : JapaneseChar) : bool :=
  bool_decide (type q = kanji) || bool_decide (type q = vocabulary).

(** [isMeaningQuestion ? q.meaning : q.romaji]; [meaning] is optional. *)
Definition correctAnswer (q : JapaneseChar) : option string :=
  if isMeaningQuestion q then meaning q else Some (romaji q).

(** [answer === correctAnswer] *)
Definition isCorrect (q : JapaneseChar) (answer : string) : bool :=
  bool_decide (Some answer = correctAnswer q).

(** [x >= t] for [x : number | undefined]. *)
Definition geNumber (x : option Z) (t : Z) : bool :=
  match x with
  | Some v => t <=? v
  | None => false
  end.

(** The updater passed to [setProgress] on a correct answer. *)
Definition progressOnCorrect (qid : string) (prev : UserProgress)
    : UserProgress :=
  let newSuccess :=
    <[qid := orZero (successCounts prev !! qid) + 1]> (successCounts prev) in
  let newMastered :=
    if geNumber (newSuccess !! qid) MASTERY_THRESHOLD
       && negb (includes (masteredIds prev) qid)
    then (masteredIds prev ++ [qid])%list
    else masteredIds prev in
  {| masteredIds := newMastered; weakIds := weakIds prev;
     successCounts := newSuccess |}.

(** The updater passed to [setProgress] on an incorrect answer. *)
Definition progressOnIncorrect (qid : string) (prev : UserProgress)
    : UserProgress :=
  let newWeak := <[qid := orZero (weakIds prev !! qid) + 1]> (weakIds prev) in
  let newSuccess :=
    <[qid := Z.max 0 (orZero (successCounts prev !! qid) - 1)]>
      (successCounts prev) in
  {| masteredIds := masteredIds prev; weakIds := newWeak;
     successCounts := newSuccess |}.

Definition scoreUp (prev : QuizState) : QuizState :=
  {| isActive := isActive prev; currentIndex := currentIndex prev;
     score := score prev + 1; questions := questions prev;
     mistakes := mistakes prev |}.

Definition addMistake (qid : string) (prev : QuizState) : QuizState :=
  {| isActive := isActive prev; currentIndex := currentIndex prev;
     score := score prev; questions := questions prev;
     mistakes := (mistakes prev ++ [qid])%list |}.

(** [hay.includes(needle)] on strings. *)
Fixpoint str_includes (hay needle : string) : bool :=
  String.prefix needle hay
  || match hay with
     | EmptyString => false
     | String _ rest => str_includes rest needle
     end.

Definition ENTITY_NOT_FOUND : string := "Requested entity was not found".
Definition INVALID_KEY_MESSAGE : string := "Please select a valid paid API key.".
Definition NO_TIP_MESSAGE : string := "Could not fetch mnemonic tip.".

(** [err.message?.includes("Requested entity was not found")] *)
Definition isEntityNotFound (message : option string) : bool :=
  match message with
  | Some m => str_includes m ENTITY_NOT_FOUND
  | None => false
  end.

(** What [handleAnswer] does with the completion of
    [await getMnemonicForChar(currentQuestion)]: the rest of the [try] block
    and the [catch] block. *)
Definition afterHint (r : Completion (option MnemonicResponse)) (s : App)
    : App :=
  match r with
  | Normal (Some aiTip) => setMnemonic (Some aiTip) s
  | Normal None => setIsProcessing false s
  | Throw message =>
      let s :=
        if isEntityNotFound message then
          setGlobalError (Some INVALID_KEY_MESSAGE) (setHasKey (Some false) s)
        else setGlobalError (Some NO_TIP_MESSAGE) s in
      setIsProcessing false s
  end.

(** The incorrect branch up to the [await]. *)
Definition recordMistake (q : JapaneseChar) (s : App) : App :=
  setProgress (progressOnIncorrect (id q)) (setQuiz (addMistake (id q)) s).

(** The correct branch. *)
Definition recordSuccess (q : JapaneseChar) (s : App) : App :=
  setProgress (progressOnCorrect (id q)) (setQuiz scoreUp s).

(** [handleAnswer] up to its [await]: the state it leaves, and the question
    whose hint it then waits for, if any. *)
Definition handleAnswer_begin (answer : string) (s : App)
    : App * list Effect * option JapaneseChar :=
  let s := setIsProcessing true s in
  match currentQuestion s with
  | None => (s, [UncaughtTypeError], None)
  | Some q =>
      if isCorrect q answer then
        (recordSuccess q s, [SetTimeout_nextQuestion 800], None)
      else (recordMistake q s, [], Some q)
  end.

(** [handleAnswer] with the hint request settled at once. *)
Definition handleAnswer (js : JsonHost) (api : ApiResult) (answer : string)
    (s : App) : App * list Effect :=
  match handleAnswer_begin answer s with
  | (s, log, None) => (s, log)
  | (s, log, Some q) =>
      let '(r, log') := getMnemonicForChar js api q in
      (afterHint r s, (log ++ log')%list)
  end.

Definition nextQuestion (s : App) : App :=
  let s1 := setIsProcessing false (setMnemonic None s) in
  if currentIndex (quiz s) <? Z.of_nat (length (questions (quiz s))) - 1 then
    setQuiz (λ prev,
      {| isActive := isActive prev; currentIndex := currentIndex prev + 1;
         score := score prev; questions := questions prev;
         mistakes := mistakes prev |}) s1
  else setView v_review s1.

(** [nextQuestion] as the closure of an earlier render runs it, which is what
    [setTimeout(() => nextQuestion(), 800)] calls: the test reads [quiz] of
    the render that made the closure ([rendered]), the setters work on the
    state at the time of the call.  [nextQuestion s] is the case of an
    up-to-date render, [rendered = quiz s]. *)
Definition nextQuestion_of (rendered : QuizState) (s : App) : App :=
  let s1 := setIsProcessing false (setMnemonic None s) in
  if currentIndex rendered <? Z.of_nat (length (questions rendered)) - 1 then
    setQuiz (λ prev,
      {| isActive := isActive prev; currentIndex := currentIndex prev + 1;
         score := score prev; questions := questions prev;
         mistakes := mistakes prev |}) s1
  else setView v_review s1.

Definition resetToHome (s : App) : App :=
  setSelectedGrammar None (setQuiz (λ _, inactiveQuiz) (setView v_home s)).

(** ** Status and proficiency classifier *)

Definition getStatus (progress : UserProgress) (charId : string)
    : ProgressStatus :=
  let success := orZero (successCounts progress !! charId) in
  if includes (masteredIds progress) charId then Completed
  else if 0 <? success then In_progress
  else Not_started.

Definition getProficiency (progress : UserProgress) (charId : string)
    : ProficiencyLevel :=
  let success := orZero (successCounts progress !! charId) in
  if PROFICIENCY_ADVANCED <=? success then Advanced
  else if PROFICIENCY_INTERMEDIATE <=? success then Intermediate
  else if 0 <? success then Beginner
  else PNone.

(** ** Events of a run *)

(** What can happen to the component, one handler call per event. *)
Inductive Event :=
  | E_startQuiz (rnd : Shuffle) (type_ : CharacterType) (reviewMistakes : bool)
  | E_handleAnswer (api : ApiResult) (answer : string)
  | E_answerBegins (answer : string)
  | E_hintSettles (r : Completion (option MnemonicResponse))
  | E_nextQuestion
  | E_resetToHome
  | E_closeMnemonic
  | E_dismissError
  | E_setView (v : View)
  | E_timerFires (rendered : QuizState).

(** [E_handleAnswer] is an answer whose hint request settles before anything
    else happens; [E_answerBegins] and [E_hintSettles] are the two halves of
    [handleAnswer] when other events come in between.  [E_nextQuestion] is a
    click on Next Question, whose handler belongs to the current render.
    [E_timerFires rendered] is the timer of a correct answer running out: it
    calls the [nextQuestion] of the render in which the answer was given,
    whose [quiz] was [rendered]; other events may have come in between. *)
Definition step (cat : Catalogs) (js : JsonHost) (s : App) (e : Event) : App :=
  match e with
  | E_startQuiz rnd type_ reviewMistakes =>
      (startQuiz cat rnd type_ reviewMistakes s).1
  | E_handleAnswer api answer => (handleAnswer js api answer s).1
  | E_answerBegins answer => (handleAnswer_begin answer s).1.1
  | E_hintSettles r => afterHint r s
  | E_nextQuestion => nextQuestion s
  | E_resetToHome => resetToHome s
  | E_closeMnemonic => setMnemonic None s
  | E_dismissError => setGlobalError None s
  | E_setView v => setView v s
  | E_timerFires rendered => nextQuestion_of rendered s
  end.

Definition run (cat : Catalogs) (js : JsonHost) (s : App) (es : list Event)
    : App :=
  foldl (step cat js) s es.

(** ** Sample data for the worked examples *)

Definition mkChar (i c r : string) (m : option string) (t : CharacterType)
    : JapaneseChar :=
  {| id := i; char := c; romaji := r; meaning := m; type := t;
     kunyomi := None; onyomi := None; sinoVietnamese := None;
     exampleVocab := None |}.

Definition kana (t : CharacterType) (prefix : string) (r : string)
    : JapaneseChar :=
  mkChar (prefix +:+ r) r r None t.

Definition sampleRomaji : list string :=
  ["a"; "i"; "u"; "e"; "o"; "ka"; "ki"; "ku"; "ke"; "ko"; "sa"; "shi"].

Definition sampleCatalogs : Catalogs :=
  {| HIRAGANA := kana hiragana "h-" <$> sampleRomaji;
     KATAKANA := kana katakana "k-" <$> take 3 sampleRomaji;
     KANJI_N5 :=
       [mkChar "kj-1" "日" "nichi" (Some "Sun / Day") kanji;
        mkChar "kj-2" "月" "getsu" (Some "Moon / Month") kanji];
     VOCABULARY_N5 :=
       [mkChar "v-1" "学校" "gakkou" (Some "School") vocabulary] |}.

Definition identityShuffle : Shuffle :=
  {| permute := λ l, l; permute_perm := λ l, reflexivity l |}.

Definition reverseShuffle : Shuffle :=
  {| permute := reverse; permute_perm := reverse_Permutation |}.

Definition sampleJson : JsonHost :=
  {| trim := λ t, t; JSON_parse := λ _, ParseThrows (Some "Unexpected token") |}.

(** A hiragana practice session on the sample catalog, fresh progress. *)
Definition sampleApp : App :=
  (startQuiz sampleCatalogs identityShuffle hiragana false
     (initialApp emptyProgress)).1.

Definition sampleQuestion : JapaneseChar := kana hiragana "h-" "a".

(** The sample session after three correct answers to its first question. *)
Definition masteredApp : App :=
  run sampleCatalogs sampleJson sampleApp
    [E_handleAnswer (ApiThrows None) "a"; E_handleAnswer (ApiThrows None) "a";
     E_handleAnswer (ApiThrows None) "a"].

(** The sample session after one incorrect answer to its first question. *)
Definition weakApp : App :=
  (handleAnswer sampleJson (ApiThrows None) "ka" sampleApp).1.

(** ** The discovery engine, in the words of the specification *)

(** Number of items of the catalog whose id is in [masteredIds]. *)
Definition masteredCountWithinCategory (p : UserProgress)
    (catalog : list JapaneseChar) : nat :=
  length (filter (λ c, id c ∈ masteredIds p) catalog).

(** ** Invariant and review pool, in the words of the specification *)

(** The counters of a progress record are not negative. *)
Definition ProgressInv (p : UserProgress) : Prop :=
  (∀ k v, weakIds p !! k = Some v → 0 ≤ v)
  ∧ (∀ k v, successCounts p !! k = Some v → 0 ≤ v).

(** The item's id is a key of [weakIds] with a count above zero. *)
Definition hasPositiveWeakCount (p : UserProgress) (c : JapaneseChar) : bool :=
  match weakIds p !! id c with
  | Some n => bool_decide (0 < n)
  | None => false
  end.

(** The review pool in the words of the specification. *)
Definition weakPool (p : UserProgress) (pool : list JapaneseChar)
    : list JapaneseChar :=
  filter (λ c, hasPositiveWeakCount p c = true) pool.

(** ** Rest of App.tsx and components/QuizCard.tsx *)

#[global] Instance View_eq_dec : EqDecision View.
Proof. solve_decision. Defined.

#[global] Instance ProgressStatus_eq_dec : EqDecision ProgressStatus.
Proof. solve_decision. Defined.

#[global] Instance ProficiencyLevel_eq_dec : EqDecision ProficiencyLevel.
Proof. solve_decision. Defined.

#[global] Instance JapaneseChar_eq_dec : EqDecision JapaneseChar.
Proof. solve_decision. Defined.

(** [progress.masteredIds.length], shown in the navigation bar. *)
Definition totalMasteredCount (s : App) : nat := length (masteredIds (progress s)).

(** [QuizView] renders the card only in the quiz view with a current
    question; the "Next Question" button sits inside [{mnemonic && ...}]. *)
Definition quizCardShown (s : App) : bool :=
  bool_decide (view s = v_quiz) && bool_decide (is_Some (currentQuestion s)).

Definition nextButtonShown (s : App) : bool :=
  quizCardShown s && bool_decide (is_Some (mnemonic s)).

(** [QuizCard.handleSelect], with [onAnswer = handleAnswer]:
    [if (isProcessing) return; setSelected(option); onAnswer(option);] *)
Definition handleSelect (js : JsonHost) (api : ApiResult) (option_ : string)
    (selected : option string) (s : App)
    : option string * App * list Effect :=
  if isProcessing s then (selected, s, [])
  else
    let '(s', log) := handleAnswer js api option_ s in
    (Some option_, s', log).

(** What the user can do: each event is a control of the rendered page, and
    does nothing when that control is not rendered. *)
Inductive UserEvent :=
  | U_select (api : ApiResult) (option_ : string)
  | U_nextQuestion
  | U_startQuiz (rnd : Shuffle) (type_ : CharacterType)
  | U_resetToHome
  | U_setView (v : View)
  | U_dismissError.

Definition userStep (cat : Catalogs) (js : JsonHost) (s : App)
    (e : UserEvent) : App :=
  match e with
  | U_select api option_ =>
      if quizCardShown s then (handleSelect js api option_ None s).1.2 else s
  | U_nextQuestion => if nextButtonShown s then nextQuestion s else s
  | U_startQuiz rnd type_ => (startQuiz cat rnd type_ false s).1
  | U_resetToHome => resetToHome s
  | U_setView v => setView v s
  | U_dismissError => setGlobalError None s
  end.

Definition userRun (cat : Catalogs) (js : JsonHost) (s : App)
    (es : list UserEvent) : App :=
  foldl (userStep cat js) s es.

(** *** Answer options of the current question ([options]) *)

(** One run of [a.sort(() => Math.random() - 0.5)] on an array of any
    element type. *)
Record ShuffleOf (A : Type) := {
  arrange : list A → list A;
  arrange_perm : ∀ l, arrange l ≡ₚ l
}.
Arguments arrange {A} _ _.
Arguments arrange_perm {A} _ _.

(** [a.indexOf(v)]; [None] stands for [-1]. *)
Fixpoint indexOf {A} `{EqDecision A} (a : list A) (v : A) : option nat :=
  match a with
  | [] => None
  | x :: a' => if decide (x = v) then Some 0%nat else S <$> indexOf a' v
  end.

(** [a.filter((v, i) => p(v, i))], the indices counted from [i]. *)
Fixpoint filterFrom {A} (p : A → nat → bool) (i : nat) (a : list A) : list A :=
  match a with
  | [] => []
  | x :: a' =>
      if p x i then x :: filterFrom p (S i) a' else filterFrom p (S i) a'
  end.

Definition optionPool (cat : Catalogs) (q : JapaneseChar) : list JapaneseChar :=
  if isMeaningQuestion q then (KANJI_N5 cat ++ VOCABULARY_N5 cat)%list
  else (HIRAGANA cat ++ KATAKANA cat)%list.

(** The values mapped from the pool, before duplicates are dropped. *)
Definition optionValues (cat : Catalogs) (q : JapaneseChar)
    : list (option string) :=
  correctAnswer <$> filter (λ c, id c ≠ id q) (optionPool cat q).

Definition wrongOptions (cat : Catalogs) (rnd : ShuffleOf (option string))
    (q : JapaneseChar) : list (option string) :=
  let a := optionValues cat q in
  let distinct :=
    filterFrom (λ v i, bool_decide (indexOf a v = Some i)
                       && negb (bool_decide (v = correctAnswer q))) 0 a in
  slice0 3 (arrange rnd distinct).

(** [options]; an entry is [None] where [meaning!] reads [undefined]. *)
Definition options (cat : Catalogs) (rnd1 rnd2 : ShuffleOf (option string))
    (s : App) : list (option string) :=
  match currentQuestion s with
  | None => []
  | Some q => arrange rnd2 (correctAnswer q :: wrongOptions cat rnd1 q)
  end.

(** *** Unlock notification (the effect on [unlockedSets] and [view]) *)

(** [prevDiscoveredCounts.current], one count per script key. *)
Record DiscoveredCounts := {
  n_hiragana : nat;
  n_katakana : nat;
  n_kanji : nat;
  n_vocabulary : nat
}.

Definition initialCounts : DiscoveredCounts :=
  {| n_hiragana := INITIAL_INTRO_COUNT; n_katakana := INITIAL_INTRO_COUNT;
     n_kanji := INITIAL_INTRO_COUNT; n_vocabulary := INITIAL_INTRO_COUNT |}.

(** [prev[cat]] for the script keys the loop visits. *)
Definition countOf (prev : DiscoveredCounts) (key : CharacterType) : nat :=
  match key with
  | hiragana => n_hiragana prev
  | katakana => n_katakana prev
  | kanji => n_kanji prev
  | vocabulary => n_vocabulary prev
  | general | grammar => 0%nat
  end.

(** [prev[cat] = n] *)
Definition setCount (prev : DiscoveredCounts) (key : CharacterType) (n : nat)
    : DiscoveredCounts :=
  match key with
  | hiragana =>
      {| n_hiragana := n; n_katakana := n_katakana prev;
         n_kanji := n_kanji prev; n_vocabulary := n_vocabulary prev |}
  | katakana =>
      {| n_hiragana := n_hiragana prev; n_katakana := n;
         n_kanji := n_kanji prev; n_vocabulary := n_vocabulary prev |}
  | kanji =>
      {| n_hiragana := n_hiragana prev; n_katakana := n_katakana prev;
         n_kanji := n; n_vocabulary := n_vocabulary prev |}
  | vocabulary =>
      {| n_hiragana := n_hiragana prev; n_katakana := n_katakana prev;
         n_kanji := n_kanji prev; n_vocabulary := n |}
  | general | grammar => prev
  end.

(** The banner state the effect works on: [unlockNotification], the ref
    [prevDiscoveredCounts], and the delays of the timers it started. *)
Record Banner := {
  unlockNotification : option JapaneseChar;
  prevDiscoveredCounts : DiscoveredCounts;
  clearTimers : list Z
}.

(** One turn of the loop [for (const cat of categories)]. *)
Definition unlockVisit (cat : Catalogs) (p : UserProgress) (b : Banner)
    (key : CharacterType) : Banner :=
  match unlockedSets cat p key with
  | Some pool =>
      let b1 :=
        if bool_decide (countOf (prevDiscoveredCounts b) key < length pool)%nat
        then {| unlockNotification := last pool;
                prevDiscoveredCounts := prevDiscoveredCounts b;
                clearTimers := (clearTimers b ++ [5000])%list |}
        else b in
      {| unlockNotification := unlockNotification b1;
         prevDiscoveredCounts := setCount (prevDiscoveredCounts b1) key (length pool);
         clearTimers := clearTimers b1 |}
  | None =>
      {| unlockNotification := unlockNotification b;
         prevDiscoveredCounts :=
           setCount (prevDiscoveredCounts b) key INITIAL_INTRO_COUNT;
         clearTimers := clearTimers b |}
  end.

Definition unlockCategories : list CharacterType :=
  [hiragana; katakana; kanji; vocabulary].

(** The effect itself; it runs after a render in which [unlockedSets] or
    [view] changed. *)
Definition unlockEffect (cat : Catalogs) (s : App) (b : Banner) : Banner :=
  if bool_decide (view s ≠ v_home) then b
  else foldl (unlockVisit cat (progress s)) b unlockCategories.

(** *** Counts of the mastery dashboard and of the home cards *)

(** [script.pool.filter(c => getStatus(c.id) === 'Completed').length] *)
Definition masteredCount (p : UserProgress) (pool : list JapaneseChar) : nat :=
  length (filter (λ c, getStatus p (id c) = Completed) pool).

Definition inProgressCount (p : UserProgress) (pool : list JapaneseChar) : nat :=
  length (filter (λ c, getStatus p (id c) = In_progress) pool).

Definition advancedCount (p : UserProgress) (pool : list JapaneseChar) : nat :=
  length (filter (λ c, getProficiency p (id c) = Advanced) pool).

(** [item.pool.filter(c => progress.masteredIds.includes(c.id)).length] of
    the home cards. *)
Definition homeMasteredCount (p : UserProgress) (pool : list JapaneseChar)
    : nat :=
  length (filter (λ c, includes (masteredIds p) (id c) = true) pool).

(** *** Search in the vocabulary and grammar lists *)

(** [filteredVocab]; [lower] is [String.prototype.toLowerCase]. *)
Definition filteredVocab (lower : string → string) (cat : Catalogs)
    (vocabSearch : string) : list JapaneseChar :=
  filter (λ v,
      str_includes (char v) vocabSearch
      || match meaning v with
         | Some m => str_includes (lower m) (lower vocabSearch)
         | None => false
         end
      || str_includes (lower (romaji v)) (lower vocabSearch) = true)
    (VOCABULARY_N5 cat).

(** [filteredGrammar] over the catalog [GRAMMAR_N5]. *)
Definition filteredGrammar (lower : string → string)
    (GRAMMAR_N5 : list GrammarPoint) (grammarSearch : string)
    : list GrammarPoint :=
  filter (λ g,
      str_includes (lower (title g)) (lower grammarSearch)
      || str_includes (lower (explanation g)) (lower grammarSearch) = true)
    GRAMMAR_N5.

(** *** Invariants of the component state *)

(** The cursor of the session points at a question, or the session has none. *)
Definition CursorInv (s : App) : Prop :=
  questions (quiz s) = [] ∧ currentIndex (quiz s) = 0
  ∨ 0 ≤ currentIndex (quiz s) < Z.of_nat (length (questions (quiz s))).

(** A success counter at the mastery threshold belongs to a mastered id, and
    no id is listed twice. *)
Definition MasteredInv (p : UserProgress) : Prop :=
  NoDup (masteredIds p)
  ∧ ∀ k v, successCounts p !! k = Some v → MASTERY_THRESHOLD ≤ v →
           k ∈ masteredIds p.

(** A mistake counter that exists is at least one. *)
Definition WeakInv (p : UserProgress) : Prop :=
  ∀ k v, weakIds p !! k = Some v → 1 ≤ v.

(** Questions, mastered ids and counters all belong to discovered items. *)
Definition DiscoveredInv (cat : Catalogs) (s : App) : Prop :=
  let known := id <$> combinedDiscoveredPool cat (progress s) in
  (∀ q, q ∈ questions (quiz s) → q ∈ combinedDiscoveredPool cat (progress s))
  ∧ (∀ x, x ∈ masteredIds (progress s) → x ∈ known)
  ∧ (∀ x, is_Some (successCounts (progress s) !! x) → x ∈ known)
  ∧ (∀ x, is_Some (weakIds (progress s) !! x) → x ∈ known).

(** The discovered pool of the script is longer than the count recorded for
    it. *)
Definition hasGrown (cat : Catalogs) (p : UserProgress)
    (prev : DiscoveredCounts) (key : CharacterType) : bool :=
  match unlockedSets cat p key with
  | Some pool => bool_decide (countOf prev key < length pool)%nat
  | None => false
  end.

(** The scripts that grew, in the order the effect visits them. *)
Definition grownCategories (cat : Catalogs) (p : UserProgress)
    (prev : DiscoveredCounts) : list CharacterType :=
  filter (λ key, hasGrown cat p prev key = true) unlockCategories.

(** *** Kinds of events *)

(** The event is not a timer with an outdated closure: the session the
    closure saw has the cursor and the questions of the current one. *)
Definition timerIsFresh (s : App) (e : Event) : Prop :=
  match e with
  | E_timerFires rendered =>
      currentIndex rendered = currentIndex (quiz s)
      ∧ questions rendered = questions (quiz s)
  | _ => True
  end.

(** No timer of the run fires with an outdated closure. *)
Fixpoint timersFresh (cat : Catalogs) (js : JsonHost) (s : App)
    (es : list Event) : Prop :=
  match es with
  | [] => True
  | e :: es' => timerIsFresh s e ∧ timersFresh cat js (step cat js s e) es'
  end.

(** The event is a call of [handleAnswer] (whole, or up to its [await]). *)
Definition isAnswerEvent (e : Event) : bool :=
  match e with
  | E_handleAnswer _ _ | E_answerBegins _ => true
  | _ => false
  end.

(** The event keeps the session: it is not [startQuiz] or [resetToHome]. *)
Definition keepsSession (e : Event) : bool :=
  match e with
  | E_startQuiz _ _ _ | E_resetToHome => false
  | _ => true
  end.

(** Number of calls of [handleAnswer] in the run that find a current
    question (the others throw before they count anything). *)
Fixpoint answeredCount (cat : Catalogs) (js : JsonHost) (s : App)
    (es : list Event) : nat :=
  match es with
  | [] => 0
  | e :: es' =>
      ((if isAnswerEvent e && bool_decide (is_Some (currentQuestion s))
        then 1 else 0)
       + answeredCount cat js (step cat js s e) es')%nat
  end.

(** Answering every question of a session with its own answer, each answer
    followed by [nextQuestion]. *)
Definition perfectEvents (api : ApiResult) (answers : list string)
    : list Event :=
  answers ≫= λ a, [E_handleAnswer api a; E_nextQuestion].

(** *** More sample data *)

Definition sampleTip : MnemonicResponse :=
  {| character := "a"; mnemonic_text := "An apple"; exampleSentence := "a";
     translation := "a" |}.

(** A host whose [JSON.parse] accepts every text as the sample tip. *)
Definition tipJson : JsonHost :=
  {| trim := λ t, t; JSON_parse := λ _, ParseValue sampleTip |}.

Definition keepOrder {A} : ShuffleOf A :=
  {| arrange := λ l, l; arrange_perm := λ l, reflexivity l |}.

Definition reverseOrder {A} : ShuffleOf A :=
  {| arrange := reverse; arrange_perm := reverse_Permutation |}.

Definition sampleKanji : JapaneseChar :=
  mkChar "kj-1" "日" "nichi" (Some "Sun / Day") kanji.

(** An incorrect answer whose hint arrives, then leaving the quiz and
    starting a session. *)
Definition quitWithHintShown : list UserEvent :=
  [U_select (ApiResponse (Some "{}")) "ka"; U_resetToHome;
   U_startQuiz identityShuffle hiragana].

(** * Properties *)

(** ** Discovery engine *)

Lemma includes_true ids x : includes ids x = true ↔ x ∈ ids.
Proof. unfold includes. apply bool_decide_eq_true. Qed.

Lemma categoryMasteredCount_spec p fullPool :
  length (filter (λ c, includes (masteredIds p) (id c) = true) fullPool)
  = masteredCountWithinCategory p fullPool.
Proof.
  unfold masteredCountWithinCategory.
  induction fullPool as [|c l IH]; [done|].
  rewrite !filter_cons.
  destruct (decide (includes (masteredIds p) (id c) = true)) as [H|H];
    destruct (decide (id c ∈ masteredIds p)) as [H'|H']; simpl;
    rewrite ?IH; try done; rewrite includes_true in H; contradiction.
Qed.

Lemma masteredCount_mono p p' catalog :
  masteredIds p ⊆ masteredIds p' →
  (masteredCountWithinCategory p catalog
   ≤ masteredCountWithinCategory p' catalog)%nat.
Proof.
  intros Hsub. unfold masteredCountWithinCategory.
  induction catalog as [|c l IH]; [done|].
  rewrite !filter_cons.
  destruct (decide (id c ∈ masteredIds p)) as [H|H];
    destruct (decide (id c ∈ masteredIds p')) as [H'|H']; simpl; try lia.
  exfalso. apply H', Hsub, H.
Qed.

Lemma masteredCount_le_length p catalog :
  (masteredCountWithinCategory p catalog ≤ length catalog)%nat.
Proof. unfold masteredCountWithinCategory. apply length_filter. Qed.

Lemma getDiscoveredPool_length p fullPool :
  length (getDiscoveredPool p fullPool)
  = ((INITIAL_INTRO_COUNT + masteredCountWithinCategory p fullPool)
       `min` length fullPool)%nat.
Proof.
  unfold getDiscoveredPool, slice0.
  rewrite categoryMasteredCount_spec, length_take. lia.
Qed.

(** C1. The discovered pool is the first
    [min (INITIAL_INTRO_COUNT + masteredCountWithinCategory) catalogLength]
    items of the catalog, in catalog order, with [INITIAL_INTRO_COUNT = 10];
    its length lies between [min 10 catalogLength] and [catalogLength], and
    does not shrink when [masteredIds] grows. *)
Theorem getDiscoveredPool_prefix_monotone (p p' : UserProgress)
    (fullPool : list JapaneseChar) :
  masteredIds p ⊆ masteredIds p' →
  let n := ((INITIAL_INTRO_COUNT + masteredCountWithinCategory p fullPool)
              `min` length fullPool)%nat in
  INITIAL_INTRO_COUNT = 10%nat
  ∧ getDiscoveredPool p fullPool = take n fullPool
  ∧ (∀ i : nat, getDiscoveredPool p fullPool !! i
                = if decide (i < n)%nat then fullPool !! i else None)
  ∧ length (getDiscoveredPool p fullPool) = n
  ∧ (10 `min` length fullPool ≤ length (getDiscoveredPool p fullPool))%nat
  ∧ (length (getDiscoveredPool p fullPool) ≤ length fullPool)%nat
  ∧ (length (getDiscoveredPool p fullPool)
     ≤ length (getDiscoveredPool p' fullPool))%nat.
Proof.
  intros Hsub n.
  assert (Hpre : getDiscoveredPool p fullPool = take n fullPool).
  { unfold getDiscoveredPool, slice0.
    by rewrite categoryMasteredCount_spec. }
  pose proof (getDiscoveredPool_length p fullPool) as Hlen.
  pose proof (getDiscoveredPool_length p' fullPool) as Hlen'.
  pose proof (masteredCount_mono p p' fullPool Hsub) as Hmono.
  fold n in Hlen.
  split; [done|]. split; [done|]. split.
  { intros i. rewrite Hpre. destruct (decide (i < n)%nat) as [Hi|Hi].
    - by apply lookup_take_lt.
    - apply lookup_take_ge. lia. }
  split; [done|].
  unfold INITIAL_INTRO_COUNT in *. repeat split; lia.
Qed.

Lemma getDiscoveredPool_prefix_monotone_witness :
  let p := emptyProgress in
  let p' := progressOnCorrect "h-a" (progressOnCorrect "h-a"
              (progressOnCorrect "h-a" emptyProgress)) in
  length (getDiscoveredPool p (HIRAGANA sampleCatalogs)) = 10%nat
  ∧ length (getDiscoveredPool p' (HIRAGANA sampleCatalogs)) = 11%nat
  ∧ (length (getDiscoveredPool p (HIRAGANA sampleCatalogs))
     ≤ length (getDiscoveredPool p' (HIRAGANA sampleCatalogs)))%nat.
Proof.
  intros p p'.
  split; [vm_compute; reflexivity|].
  split; [vm_compute; reflexivity|].
  apply (getDiscoveredPool_prefix_monotone p p' (HIRAGANA sampleCatalogs)).
  vm_compute. intros x Hx. inversion Hx.
Defined.

(** ** Answer evaluator: what one call of [handleAnswer] leaves behind *)

Lemma orZero_default x : orZero x = default 0 x.
Proof.
  destruct x as [v|]; simpl; [|done].
  case_bool_decide; congruence.
Qed.

Lemma afterHint_progress r s : progress (afterHint r s) = progress s.
Proof.
  destruct r as [[v|]|m]; simpl; try done.
  by destruct (isEntityNotFound m).
Qed.

Lemma afterHint_quiz r s : quiz (afterHint r s) = quiz s.
Proof.
  destruct r as [[v|]|m]; simpl; try done.
  by destruct (isEntityNotFound m).
Qed.

Lemma handleAnswer_progress js api answer s q :
  currentQuestion s = Some q →
  progress (handleAnswer js api answer s).1
  = if isCorrect q answer then progressOnCorrect (id q) (progress s)
    else progressOnIncorrect (id q) (progress s).
Proof.
  intros Hq. unfold handleAnswer, handleAnswer_begin.
  change (currentQuestion (setIsProcessing true s)) with (currentQuestion s).
  rewrite Hq. destruct (isCorrect q answer); [done|].
  destruct (getMnemonicForChar js api q) as [r log]. simpl.
  by rewrite afterHint_progress.
Qed.

Lemma handleAnswer_quiz js api answer s q :
  currentQuestion s = Some q →
  quiz (handleAnswer js api answer s).1
  = if isCorrect q answer then scoreUp (quiz s)
    else addMistake (id q) (quiz s).
Proof.
  intros Hq. unfold handleAnswer, handleAnswer_begin.
  change (currentQuestion (setIsProcessing true s)) with (currentQuestion s).
  rewrite Hq. destruct (isCorrect q answer); [done|].
  destruct (getMnemonicForChar js api q) as [r log]. simpl.
  by rewrite afterHint_quiz.
Qed.

Lemma handleAnswer_no_question js api answer s :
  currentQuestion s = None →
  progress (handleAnswer js api answer s).1 = progress s
  ∧ quiz (handleAnswer js api answer s).1 = quiz s.
Proof.
  intros Hq. unfold handleAnswer, handleAnswer_begin.
  change (currentQuestion (setIsProcessing true s)) with (currentQuestion s).
  by rewrite Hq.
Qed.

Lemma handleAnswer_currentQuestion js api answer s :
  currentQuestion (handleAnswer js api answer s).1 = currentQuestion s.
Proof.
  destruct (currentQuestion s) as [q|] eqn:Hq.
  - pose proof (handleAnswer_quiz js api answer s q Hq) as Hz.
    unfold currentQuestion in *. rewrite Hz.
    by destruct (isCorrect q answer).
  - destruct (handleAnswer_no_question js api answer s Hq) as [_ Hz].
    unfold currentQuestion in *. by rewrite Hz.
Qed.

Lemma isCorrect_spec q answer :
  isCorrect q answer = true ↔ Some answer = correctAnswer q.
Proof. unfold isCorrect. apply bool_decide_eq_true. Qed.

Lemma correctAnswer_cases q :
  correctAnswer q
  = match type q with
    | kanji | vocabulary => meaning q
    | hiragana | katakana | general | grammar => Some (romaji q)
    end.
Proof. unfold correctAnswer, isMeaningQuestion. by destruct (type q). Qed.

Lemma progressOnCorrect_count qid p :
  successCounts (progressOnCorrect qid p) !! qid
  = Some (default 0 (successCounts p !! qid) + 1).
Proof. simpl. by rewrite lookup_insert_eq, orZero_default. Qed.

Lemma progressOnCorrect_mastered qid p :
  masteredIds (progressOnCorrect qid p)
  = if decide (MASTERY_THRESHOLD ≤ default 0 (successCounts p !! qid) + 1
               ∧ qid ∉ masteredIds p)
    then (masteredIds p ++ [qid])%list
    else masteredIds p.
Proof.
  simpl. rewrite lookup_insert_eq, orZero_default. simpl.
  unfold includes.
  destruct (decide _) as [[H1 H2]|H].
  - rewrite (proj2 (Z.leb_le _ _) H1). by rewrite bool_decide_eq_false_2.
  - destruct (Z.leb_spec MASTERY_THRESHOLD
                (default 0 (successCounts p !! qid) + 1)); [|done].
    case_bool_decide; [done|]. exfalso. apply H. by split.
Qed.

(** C2. The answer counts as correct exactly when it equals, as a string, the
    meaning of a kanji or vocabulary item and the romaji of any other item.
    A correct answer raises [successCounts[id]] by one, adds [id] to
    [masteredIds] exactly when the raised count is at least 3 and [id] is not
    yet a member (a member is never added twice), and raises the session
    score by one.  Any other answer, one that differs only in case included,
    gets none of this: the score and [masteredIds] stay as they were, the
    counter is lowered instead, and the id goes to the mistakes. *)
Theorem handleAnswer_correct (js : JsonHost) (api : ApiResult)
    (answer : string) (s : App) (q : JapaneseChar) :
  currentQuestion s = Some q →
  let expected :=
    if decide (type q = kanji ∨ type q = vocabulary) then meaning q
    else Some (romaji q) in
  let s' := (handleAnswer js api answer s).1 in
  let n := default 0 (successCounts (progress s) !! id q) + 1 in
  (isCorrect q answer = true ↔ Some answer = expected)
  ∧ (Some answer = expected →
     successCounts (progress s') = <[id q := n]> (successCounts (progress s))
     ∧ successCounts (progress s') !! id q = Some n
     ∧ masteredIds (progress s')
       = (if decide (3 ≤ n ∧ id q ∉ masteredIds (progress s))
          then (masteredIds (progress s) ++ [id q])%list
          else masteredIds (progress s))
     ∧ (id q ∈ masteredIds (progress s) →
        masteredIds (progress s') = masteredIds (progress s))
     ∧ score (quiz s') = score (quiz s) + 1)
  ∧ (Some answer ≠ expected →
     score (quiz s') = score (quiz s)
     ∧ masteredIds (progress s') = masteredIds (progress s)
     ∧ successCounts (progress s') !! id q = Some (Z.max 0 (n - 2))
     ∧ mistakes (quiz s') = (mistakes (quiz s) ++ [id q])%list
     ∧ (handleAnswer js api answer s).2 ≠ [SetTimeout_nextQuestion 800])
  ∧ (score (quiz s') = score (quiz s) + 1 ↔ Some answer = expected)
  ∧ ((handleAnswer js api answer s).2 = [SetTimeout_nextQuestion 800]
     ↔ Some answer = expected).
Proof.
  intros Hq expected s' n.
  assert (Hexp : correctAnswer q = expected).
  { rewrite correctAnswer_cases. unfold expected.
    destruct (type q); destruct (decide _) as [[H|H]|H];
      try done; exfalso; apply H; auto. }
  assert (Hiff : isCorrect q answer = true ↔ Some answer = expected)
    by (rewrite isCorrect_spec; by rewrite Hexp).
  pose proof (handleAnswer_progress js api answer s q Hq) as Hp.
  pose proof (handleAnswer_quiz js api answer s q Hq) as Hz.
  assert (Hlog : (handleAnswer js api answer s).2
                 = if isCorrect q answer then [SetTimeout_nextQuestion 800]
                   else (getMnemonicForChar js api q).2).
  { unfold handleAnswer, handleAnswer_begin.
    change (currentQuestion (setIsProcessing true s)) with (currentQuestion s).
    rewrite Hq. destruct (isCorrect q answer); [done|].
    by destruct (getMnemonicForChar js api q). }
  assert (Hnolog : (getMnemonicForChar js api q).2
                   ≠ [SetTimeout_nextQuestion 800]).
  { unfold getMnemonicForChar. by destruct (getMnemonic_try js api). }
  fold s' in Hp, Hz.
  assert (Hright : Some answer = expected →
     successCounts (progress s') = <[id q := n]> (successCounts (progress s))
     ∧ successCounts (progress s') !! id q = Some n
     ∧ masteredIds (progress s')
       = (if decide (3 ≤ n ∧ id q ∉ masteredIds (progress s))
          then (masteredIds (progress s) ++ [id q])%list
          else masteredIds (progress s))
     ∧ (id q ∈ masteredIds (progress s) →
        masteredIds (progress s') = masteredIds (progress s))
     ∧ score (quiz s') = score (quiz s) + 1).
  { intros Hans. apply Hiff in Hans. rewrite Hans in Hp, Hz.
    rewrite Hp, Hz.
    split; [simpl; by rewrite orZero_default|].
    split; [apply progressOnCorrect_count|].
    split; [apply progressOnCorrect_mastered|].
    split; [|done].
    intros Hin. rewrite progressOnCorrect_mastered.
    case_decide; [tauto|done]. }
  assert (Hwrong : Some answer ≠ expected →
     score (quiz s') = score (quiz s)
     ∧ masteredIds (progress s') = masteredIds (progress s)
     ∧ successCounts (progress s') !! id q = Some (Z.max 0 (n - 2))
     ∧ mistakes (quiz s') = (mistakes (quiz s) ++ [id q])%list
     ∧ (handleAnswer js api answer s).2 ≠ [SetTimeout_nextQuestion 800]).
  { intros Hne.
    assert (Hc : isCorrect q answer = false).
    { destruct (isCorrect q answer); [|done]. exfalso. by apply Hne, Hiff. }
    rewrite Hc in Hp, Hz, Hlog. rewrite Hp, Hz, Hlog.
    split; [done|]. split; [done|]. split; [|by split].
    simpl. rewrite lookup_insert_eq, orZero_default. subst n.
    do 2 f_equal. lia. }
  split; [done|]. split; [done|]. split; [done|].
  destruct (decide (Some answer = expected)) as [Heq|Hne].
  - destruct (Hright Heq) as (_ & _ & _ & _ & Hs).
    apply Hiff in Heq as Hc. rewrite Hc in Hlog. by split.
  - destruct (Hwrong Hne) as (Hs & _ & _ & _ & Hl).
    split; (split; [intros Hbad|done]); [lia|done].
Qed.

Lemma handleAnswer_correct_witness :
  currentQuestion sampleApp = Some sampleQuestion
  ∧ score (quiz (handleAnswer sampleJson (ApiThrows None) "a" sampleApp).1) = 1
  ∧ score (quiz (handleAnswer sampleJson (ApiThrows None) "A" sampleApp).1) = 0
  ∧ isCorrect sampleQuestion "A" = false.
Proof.
  split; [reflexivity|].
  destruct (handleAnswer_correct sampleJson (ApiThrows None) "a" sampleApp
              sampleQuestion eq_refl) as (_ & H & _).
  destruct (handleAnswer_correct sampleJson (ApiThrows None) "A" sampleApp
              sampleQuestion eq_refl) as (_ & _ & H' & _).
  destruct (H eq_refl) as (_ & _ & _ & _ & Hscore).
  destruct H' as (Hscore' & _); [discriminate|].
  split; [exact Hscore|]. split; [exact Hscore'|reflexivity].
Defined.

Lemma progressOnIncorrect_count qid p :
  successCounts (progressOnIncorrect qid p) !! qid
  = Some (Z.max 0 (default 0 (successCounts p !! qid) - 1)).
Proof. simpl. by rewrite lookup_insert_eq, orZero_default. Qed.

Lemma progressOnIncorrect_weak qid p :
  weakIds (progressOnIncorrect qid p) !! qid
  = Some (default 0 (weakIds p !! qid) + 1).
Proof. simpl. by rewrite lookup_insert_eq, orZero_default. Qed.

Lemma handleAnswer_right js api answer s q :
  currentQuestion s = Some q → isCorrect q answer = true →
  progress (handleAnswer js api answer s).1
  = progressOnCorrect (id q) (progress s)
  ∧ quiz (handleAnswer js api answer s).1 = scoreUp (quiz s).
Proof.
  intros Hq Hc.
  rewrite (handleAnswer_progress _ _ _ _ _ Hq), (handleAnswer_quiz _ _ _ _ _ Hq).
  by rewrite Hc.
Qed.

Lemma handleAnswer_wrong js api answer s q :
  currentQuestion s = Some q → isCorrect q answer = false →
  progress (handleAnswer js api answer s).1
  = progressOnIncorrect (id q) (progress s)
  ∧ quiz (handleAnswer js api answer s).1 = addMistake (id q) (quiz s).
Proof.
  intros Hq Hc.
  rewrite (handleAnswer_progress _ _ _ _ _ Hq), (handleAnswer_quiz _ _ _ _ _ Hq).
  by rewrite Hc.
Qed.

(** C3. An incorrect answer raises [weakIds[id]] by one (to 1 when the key was
    absent), sets [successCounts[id]] to [max 0 (successCounts[id] - 1)],
    which is not negative, and appends [id] to the session's mistakes without
    removing duplicates.  An item not answered before that is answered
    correctly twice and then incorrectly once ends with [successCounts = 1],
    [weakIds = 1] and outside [masteredIds]. *)
Theorem handleAnswer_incorrect (cat : Catalogs) (js : JsonHost)
    (api : ApiResult) (answer : string) (s : App) (q : JapaneseChar) :
  currentQuestion s = Some q →
  isCorrect q answer = false →
  let s' := (handleAnswer js api answer s).1 in
  weakIds (progress s')
  = <[id q := default 0 (weakIds (progress s) !! id q) + 1]>
      (weakIds (progress s))
  ∧ (weakIds (progress s) !! id q = None →
     weakIds (progress s') !! id q = Some 1)
  ∧ successCounts (progress s')
    = <[id q := Z.max 0 (default 0 (successCounts (progress s) !! id q) - 1)]>
        (successCounts (progress s))
  ∧ (∃ v, successCounts (progress s') !! id q = Some v ∧ 0 ≤ v)
  ∧ mistakes (quiz s') = (mistakes (quiz s) ++ [id q])%list
  ∧ (∀ api', mistakes (quiz (handleAnswer js api' answer s').1)
             = (mistakes (quiz s) ++ [id q; id q])%list)
  ∧ (∀ right api1 api2,
       isCorrect q right = true →
       default 0 (successCounts (progress s) !! id q) = 0 →
       weakIds (progress s) !! id q = None →
       id q ∉ masteredIds (progress s) →
       let s3 := run cat js s [E_handleAnswer api1 right;
                               E_handleAnswer api2 right;
                               E_handleAnswer api answer] in
       successCounts (progress s3) !! id q = Some 1
       ∧ weakIds (progress s3) !! id q = Some 1
       ∧ id q ∉ masteredIds (progress s3)).
Proof.
  intros Hq Hc s'.
  destruct (handleAnswer_wrong js api answer s q Hq Hc) as [Hp Hz].
  subst s'. rewrite Hp, Hz.
  split; [simpl; by rewrite orZero_default|].
  split; [intros Hnone; rewrite progressOnIncorrect_weak, Hnone; done|].
  split; [simpl; by rewrite orZero_default|].
  split; [eexists; split; [apply progressOnIncorrect_count|lia]|].
  split; [done|].
  split.
  { intros api'.
    assert (Hq' : currentQuestion (handleAnswer js api answer s).1 = Some q)
      by (by rewrite handleAnswer_currentQuestion).
    destruct (handleAnswer_wrong js api' answer _ q Hq' Hc) as [_ Hz'].
    rewrite Hz', Hz. simpl. by rewrite <- app_assoc. }
  intros right api1 api2 Hr H0 Hw Hm. simpl.
  set (s1 := (handleAnswer js api1 right s).1).
  set (s2 := (handleAnswer js api2 right s1).1).
  assert (Hq1 : currentQuestion s1 = Some q)
    by (unfold s1; by rewrite handleAnswer_currentQuestion).
  assert (Hq2 : currentQuestion s2 = Some q)
    by (unfold s2; by rewrite handleAnswer_currentQuestion).
  destruct (handleAnswer_right js api1 right s q Hq Hr) as [Hp1 _].
  destruct (handleAnswer_right js api2 right s1 q Hq1 Hr) as [Hp2 _].
  destruct (handleAnswer_wrong js api answer s2 q Hq2 Hc) as [Hp3 _].
  fold s1 in Hp1. fold s2 in Hp2.
  assert (Hc1 : successCounts (progress s1) !! id q = Some 1).
  { rewrite Hp1, progressOnCorrect_count, H0. done. }
  assert (Hc2 : successCounts (progress s2) !! id q = Some 2).
  { rewrite Hp2, progressOnCorrect_count, Hc1. done. }
  assert (Hm1 : masteredIds (progress s1) = masteredIds (progress s)).
  { rewrite Hp1, progressOnCorrect_mastered, H0.
    unfold MASTERY_THRESHOLD. case_decide; [lia|done]. }
  assert (Hm2 : masteredIds (progress s2) = masteredIds (progress s)).
  { rewrite Hp2, progressOnCorrect_mastered, Hc1, Hm1.
    unfold MASTERY_THRESHOLD. case_decide; [simpl in *; lia|done]. }
  assert (Hw2 : weakIds (progress s2) !! id q = None).
  { rewrite Hp2. simpl. rewrite Hp1. done. }
  rewrite Hp3.
  split; [rewrite progressOnIncorrect_count, Hc2; done|].
  split; [rewrite progressOnIncorrect_weak, Hw2; done|].
  simpl. by rewrite Hm2.
Qed.

Lemma handleAnswer_incorrect_witness :
  let s' := (handleAnswer sampleJson (ApiThrows None) "ka" sampleApp).1 in
  weakIds (progress s') !! "h-a" = Some 1
  ∧ successCounts (progress s') !! "h-a" = Some 0
  ∧ mistakes (quiz s') = ["h-a"].
Proof.
  intros s'.
  destruct (handleAnswer_incorrect sampleCatalogs sampleJson (ApiThrows None)
              "ka" sampleApp sampleQuestion eq_refl eq_refl)
    as (_ & Hw & _ & _ & Hm & _).
  split; [exact (Hw eq_refl)|]. split; [reflexivity|exact Hm].
Defined.

(** ** What every event preserves *)

Lemma startQuiz_progress cat rnd type_ review s :
  progress (startQuiz cat rnd type_ review s).1 = progress s.
Proof.
  unfold startQuiz.
  destruct (sessionSource cat (progress s) type_) as [[pool count]|]; [|done].
  by destruct (review && _).
Qed.

Lemma nextQuestion_progress s : progress (nextQuestion s) = progress s.
Proof. unfold nextQuestion. by destruct (_ <? _). Qed.

Lemma nextQuestion_of_progress rendered s :
  progress (nextQuestion_of rendered s) = progress s.
Proof. unfold nextQuestion_of. by destruct (_ <? _). Qed.

(** The progress record after an event is the one before it, or the result
    of one of the two updaters of [handleAnswer]. *)
Lemma handleAnswer_begin_progress answer s :
  match currentQuestion s with
  | Some q =>
      progress (handleAnswer_begin answer s).1.1
      = if isCorrect q answer then progressOnCorrect (id q) (progress s)
        else progressOnIncorrect (id q) (progress s)
  | None => progress (handleAnswer_begin answer s).1.1 = progress s
  end.
Proof.
  unfold handleAnswer_begin.
  change (currentQuestion (setIsProcessing true s)) with (currentQuestion s).
  destruct (currentQuestion s) as [q|]; [|done].
  by destruct (isCorrect q answer).
Qed.

Lemma step_progress cat js s e :
  progress (step cat js s e) = progress s
  ∨ ∃ q, currentQuestion s = Some q
         ∧ (progress (step cat js s e) = progressOnCorrect (id q) (progress s)
            ∨ progress (step cat js s e)
              = progressOnIncorrect (id q) (progress s)).
Proof.
  destruct e as [rnd type_ review|api answer|answer|r| | | | |v|rendered];
    simpl; try (left; reflexivity).
  - left. apply startQuiz_progress.
  - destruct (currentQuestion s) as [q|] eqn:Hq.
    + right. exists q. split; [done|].
      rewrite (handleAnswer_progress js api answer s q Hq).
      destruct (isCorrect q answer); [by left|by right].
    + left. by destruct (handleAnswer_no_question js api answer s Hq).
  - pose proof (handleAnswer_begin_progress answer s) as Hb.
    destruct (currentQuestion s) as [q|] eqn:Hq; [|by left].
    right. exists q. split; [done|]. rewrite Hb.
    destruct (isCorrect q answer); [by left|by right].
  - left. apply afterHint_progress.
  - left. apply nextQuestion_progress.
  - left. apply nextQuestion_of_progress.
Qed.

Lemma progressOnCorrect_keeps qid p x :
  x ∈ masteredIds p → x ∈ masteredIds (progressOnCorrect qid p).
Proof.
  intros Hx. rewrite progressOnCorrect_mastered.
  case_decide; [|done]. apply elem_of_app. by left.
Qed.

Lemma step_keeps_mastered cat js s e x :
  x ∈ masteredIds (progress s) → x ∈ masteredIds (progress (step cat js s e)).
Proof.
  intros Hx.
  destruct (step_progress cat js s e) as [->|(q & _ & [-> | ->])];
    [done|by apply progressOnCorrect_keeps|done].
Qed.

Lemma run_snoc cat js s es e :
  run cat js s (es ++ [e]) = step cat js (run cat js s es) e.
Proof. unfold run. by rewrite foldl_app. Qed.

Lemma run_keeps_mastered cat js s es :
  masteredIds (progress s) ⊆ masteredIds (progress (run cat js s es)).
Proof.
  intros x Hx. induction es as [|e es IH] using rev_ind; [done|].
  rewrite run_snoc. by apply step_keeps_mastered.
Qed.

(** C4. Mastery is permanent: an id in [masteredIds] is still in it after any
    sequence of events, whatever the answers given (incorrect answers for
    that id included). *)
Theorem mastery_permanent (cat : Catalogs) (js : JsonHost) (s : App)
    (es : list Event) (x : string) :
  x ∈ masteredIds (progress s) →
  x ∈ masteredIds (progress (run cat js s es)).
Proof. apply run_keeps_mastered. Qed.

Lemma mastery_permanent_witness :
  let s' := run sampleCatalogs sampleJson masteredApp
              [E_handleAnswer (ApiThrows None) "ka";
               E_handleAnswer (ApiThrows None) "ka";
               E_handleAnswer (ApiThrows None) "ka"; E_nextQuestion] in
  masteredIds (progress masteredApp) = ["h-a"]
  ∧ successCounts (progress s') !! "h-a" = Some 0
  ∧ "h-a" ∈ masteredIds (progress s').
Proof.
  intros s'. split; [reflexivity|]. split; [reflexivity|].
  apply (mastery_permanent sampleCatalogs sampleJson masteredApp).
  apply list_elem_of_here.
Defined.

Lemma default_nonneg (m : gmap string Z) k :
  (∀ k v, m !! k = Some v → 0 ≤ v) → 0 ≤ default 0 (m !! k).
Proof. intros H. destruct (m !! k) as [v|] eqn:Hk; simpl; [eauto|lia]. Qed.

Lemma insert_nonneg (m : gmap string Z) k v :
  (∀ k v, m !! k = Some v → 0 ≤ v) → 0 ≤ v →
  ∀ k' v', <[k := v]> m !! k' = Some v' → 0 ≤ v'.
Proof.
  intros H Hv k' v'. rewrite lookup_insert.
  case_decide; [congruence|apply H].
Qed.

Lemma ProgressInv_empty : ProgressInv emptyProgress.
Proof. split; intros k v; simpl; by rewrite lookup_empty. Qed.

Lemma ProgressInv_correct qid p :
  ProgressInv p → ProgressInv (progressOnCorrect qid p).
Proof.
  intros [Hw Hs]. split; [exact Hw|]. simpl.
  apply insert_nonneg; [done|]. rewrite orZero_default.
  pose proof (default_nonneg _ qid Hs). lia.
Qed.

Lemma ProgressInv_incorrect qid p :
  ProgressInv p → ProgressInv (progressOnIncorrect qid p).
Proof.
  intros [Hw Hs]. split; simpl; (apply insert_nonneg; [done|]); [|lia].
  rewrite orZero_default. pose proof (default_nonneg _ qid Hw). lia.
Qed.

Lemma ProgressInv_step cat js s e :
  ProgressInv (progress s) → ProgressInv (progress (step cat js s e)).
Proof.
  intros Hinv.
  destruct (step_progress cat js s e) as [->|(q & _ & [-> | ->])];
    [done|by apply ProgressInv_correct|by apply ProgressInv_incorrect].
Qed.

(** Every state reached from a record with non-negative counters, the empty
    record in particular, has non-negative counters. *)
Lemma ProgressInv_run cat js s es :
  ProgressInv (progress s) → ProgressInv (progress (run cat js s es)).
Proof.
  intros Hinv. induction es as [|e es IH] using rev_ind; [done|].
  rewrite run_snoc. by apply ProgressInv_step.
Qed.

(** ** Session builder *)

Lemma truthy_positive p c :
  ProgressInv p →
  truthy (weakIds p !! id c) = true ↔ hasPositiveWeakCount p c = true.
Proof.
  intros [Hw _]. unfold truthy, hasPositiveWeakCount.
  destruct (weakIds p !! id c) as [n|] eqn:Hn; [|done].
  apply Hw in Hn.
  rewrite negb_true_iff, bool_decide_eq_false, bool_decide_eq_true. lia.
Qed.

Lemma weakFilter_weakPool p pool :
  ProgressInv p → weakFilter p pool = weakPool p pool.
Proof.
  intros Hinv. unfold weakFilter, weakPool.
  apply list_filter_iff. intros c. by apply truthy_positive.
Qed.

Lemma questions_from_pool (rnd : Shuffle) count (cand : list JapaneseChar) c :
  c ∈ slice0 count (permute rnd cand) → c ∈ cand.
Proof.
  intros Hc. apply subseteq_take in Hc. by rewrite permute_perm in Hc.
Qed.

Lemma session_length (rnd : Shuffle) count (cand : list JapaneseChar) :
  length (slice0 count (permute rnd cand)) = (count `min` length cand)%nat.
Proof. unfold slice0. by rewrite length_take, (permute_perm rnd cand). Qed.

Lemma sessionSource_count cat p type_ pool count :
  sessionSource cat p type_ = Some (pool, count) →
  count = 20%nat ∧ type_ = general ∨ count = 10%nat ∧ type_ ≠ general.
Proof.
  unfold sessionSource. case_decide as Hg.
  - intros [= <- <-]. by left.
  - destruct (unlockedSets cat p type_); [|done]. intros [= <- <-]. by right.
Qed.

(** C5. In review mode the candidate pool is first restricted to the items
    whose id is a key of [weakIds] with a count above zero; when nothing is
    left the handler reports that no mistakes are tracked and leaves the
    whole state as it was; otherwise every question of the session has a
    positive weak count. *)
Theorem startQuiz_review (cat : Catalogs) (rnd : Shuffle)
    (type_ : CharacterType) (s : App) (pool : list JapaneseChar)
    (count : nat) :
  ProgressInv (progress s) →
  sessionSource cat (progress s) type_ = Some (pool, count) →
  let candidates := weakPool (progress s) pool in
  let r := startQuiz cat rnd type_ true s in
  (candidates = [] → r = (s, [Alert NO_MISTAKES_MESSAGE]))
  ∧ (candidates ≠ [] →
     r.2 = []
     ∧ isActive (quiz r.1) = true
     ∧ view r.1 = v_quiz
     ∧ questions (quiz r.1) = take count (permute rnd candidates)
     ∧ questions (quiz r.1) ≠ []
     ∧ ∀ c, c ∈ questions (quiz r.1) →
            c ∈ pool ∧ ∃ n, weakIds (progress s) !! id c = Some n ∧ 0 < n).
Proof.
  intros Hinv Hsrc candidates r. subst r. unfold startQuiz.
  rewrite Hsrc. simpl. rewrite (weakFilter_weakPool _ _ Hinv).
  fold candidates. split; [by intros ->|].
  intros Hne. rewrite bool_decide_eq_false_2.
  2:{ intros Hlen. by apply nil_length_inv in Hlen. }
  simpl. do 4 (split; [done|]). split.
  - intros Hnil. apply (f_equal length) in Hnil.
    rewrite session_length in Hnil. simpl in Hnil.
    destruct candidates; [done|].
    destruct (sessionSource_count _ _ _ _ _ Hsrc) as [[-> _]|[-> _]];
      simpl in Hnil; lia.
  - intros c Hc. apply questions_from_pool in Hc.
    apply list_elem_of_filter in Hc as [Hpos Hc]. split; [done|].
    unfold hasPositiveWeakCount in Hpos.
    destruct (weakIds (progress s) !! id c) as [n|]; [|done].
    exists n. split; [done|]. by apply bool_decide_eq_true in Hpos.
Qed.

Lemma startQuiz_review_witness :
  (startQuiz sampleCatalogs reverseShuffle general true sampleApp
   = (sampleApp, [Alert NO_MISTAKES_MESSAGE]))
  ∧ id <$> questions (quiz (startQuiz sampleCatalogs reverseShuffle general
                             true weakApp).1) = ["h-a"].
Proof.
  split.
  - refine (proj1 (startQuiz_review sampleCatalogs reverseShuffle general
                     sampleApp _ 20%nat ProgressInv_empty eq_refl) eq_refl).
  - assert (Hinv : ProgressInv (progress weakApp)).
    { apply (ProgressInv_run sampleCatalogs sampleJson sampleApp
               [E_handleAnswer (ApiThrows None) "ka"]), ProgressInv_empty. }
    destruct (startQuiz_review sampleCatalogs reverseShuffle general weakApp
                _ 20%nat Hinv eq_refl) as [_ H].
    destruct H as (_ & _ & _ & Hq & _); [vm_compute; discriminate|].
    rewrite Hq. reflexivity.
Defined.

Lemma startQuiz_plain cat rnd type_ s pool count :
  sessionSource cat (progress s) type_ = Some (pool, count) →
  startQuiz cat rnd type_ false s
  = (setMnemonic None
       (setView v_quiz
          (setActiveType type_
             (setQuiz (λ _, freshQuiz (slice0 count (permute rnd pool))) s))),
     []).
Proof. intros Hsrc. unfold startQuiz. by rewrite Hsrc. Qed.

Lemma startQuiz_created cat rnd type_ review s pool count :
  sessionSource cat (progress s) type_ = Some (pool, count) →
  (startQuiz cat rnd type_ review s).2 = [] →
  quiz (startQuiz cat rnd type_ review s).1
  = freshQuiz (slice0 count
                 (permute rnd (if review then weakFilter (progress s) pool
                               else pool))).
Proof.
  intros Hsrc. unfold startQuiz. rewrite Hsrc.
  destruct (review && _); [discriminate|done].
Qed.

(** C6. The general target draws from the discovered pools of hiragana,
    katakana, kanji and vocabulary, concatenated in that order, and gives at
    most 20 questions; a script target draws from the discovered pool of its
    catalog and gives at most 10 (all of the pool when it is smaller); the
    session starts at index 0 with score 0 and no mistakes. *)
Theorem startQuiz_session (cat : Catalogs) (rnd : Shuffle) (s : App)
    (review : bool) :
  let p := progress s in
  sessionSource cat p general
  = Some ((getDiscoveredPool p (HIRAGANA cat)
           ++ getDiscoveredPool p (KATAKANA cat)
           ++ getDiscoveredPool p (KANJI_N5 cat)
           ++ getDiscoveredPool p (VOCABULARY_N5 cat))%list, 20%nat)
  ∧ sessionSource cat p hiragana
    = Some (getDiscoveredPool p (HIRAGANA cat), 10%nat)
  ∧ sessionSource cat p katakana
    = Some (getDiscoveredPool p (KATAKANA cat), 10%nat)
  ∧ sessionSource cat p kanji
    = Some (getDiscoveredPool p (KANJI_N5 cat), 10%nat)
  ∧ sessionSource cat p vocabulary
    = Some (getDiscoveredPool p (VOCABULARY_N5 cat), 10%nat)
  ∧ ∀ type_ pool count,
      sessionSource cat p type_ = Some (pool, count) →
      let r := startQuiz cat rnd type_ review s in
      (review = false → r.2 = [])
      ∧ (r.2 = [] →
         ∃ candidates,
           candidates ⊆ pool
           ∧ (review = false → candidates = pool)
           ∧ questions (quiz r.1) = take count (permute rnd candidates)
           ∧ length (questions (quiz r.1))
             = (count `min` length candidates)%nat
           ∧ (length (questions (quiz r.1)) ≤ count)%nat
           ∧ (∀ c, c ∈ questions (quiz r.1) → c ∈ pool)
           ∧ currentIndex (quiz r.1) = 0
           ∧ score (quiz r.1) = 0
           ∧ mistakes (quiz r.1) = []
           ∧ isActive (quiz r.1) = true).
Proof.
  intros p. do 5 (split; [reflexivity|]).
  intros type_ pool count Hsrc r. subst r. split.
  { intros ->. by rewrite (startQuiz_plain _ _ _ _ _ _ Hsrc). }
  intros Hok. rewrite (startQuiz_created _ _ _ _ _ _ _ Hsrc Hok). simpl.
  set (candidates := if review then weakFilter (progress s) pool else pool).
  assert (Hsub : candidates ⊆ pool).
  { unfold candidates. destruct review; [|done].
    intros c Hc. by apply list_elem_of_filter in Hc as [_ Hc]. }
  exists candidates. split; [done|].
  split; [by intros ->|].
  split; [done|].
  split; [apply session_length|].
  split; [rewrite session_length; lia|].
  split; [|done].
  intros c Hc. apply Hsub. by apply questions_from_pool in Hc.
Qed.

Lemma startQuiz_session_witness :
  let r := startQuiz sampleCatalogs reverseShuffle hiragana false masteredApp in
  let g := startQuiz sampleCatalogs reverseShuffle general false masteredApp in
  length (questions (quiz r.1)) = 10%nat
  ∧ length (questions (quiz g.1)) = 17%nat
  ∧ currentIndex (quiz g.1) = 0 ∧ score (quiz g.1) = 0
  ∧ mistakes (quiz g.1) = [].
Proof.
  intros r g.
  destruct (startQuiz_session sampleCatalogs reverseShuffle masteredApp false)
    as (Hg & Hh & _ & _ & _ & H).
  destruct (H hiragana _ _ Hh) as [Hr _].
  destruct (H general _ _ Hg) as [Hgok Hgs].
  destruct (Hgs (Hgok eq_refl)) as (c & _ & _ & _ & _ & _ & _ & Hi & Hs & Hm & _).
  split; [reflexivity|]. split; [reflexivity|]. by repeat split.
Defined.

(** ** Hint failures *)

(** The [catch] block of [handleAnswer] tells an authentication failure from
    any other failure. *)
Lemma afterHint_catch (m : option string) (s : App) :
  let s' := afterHint (Throw m) s in
  isProcessing s' = false
  ∧ progress s' = progress s
  ∧ (isEntityNotFound m = true →
     globalError s' = Some INVALID_KEY_MESSAGE ∧ hasKey s' = Some false)
  ∧ (isEntityNotFound m = false →
     globalError s' = Some NO_TIP_MESSAGE ∧ hasKey s' = hasKey s).
Proof. simpl. destruct (isEntityNotFound m); by repeat split. Qed.

Example isEntityNotFound_example :
  isEntityNotFound (Some "404: Requested entity was not found.") = true
  ∧ isEntityNotFound (Some "fetch failed") = false
  ∧ isEntityNotFound None = false.
Proof. by repeat split. Qed.

(** [getMnemonicForChar] never ends with a thrown error: its [catch] block
    turns every failure into [null]. *)
Lemma getMnemonicForChar_total js api c :
  ∃ r, (getMnemonicForChar js api c).1 = Normal r.
Proof.
  unfold getMnemonicForChar.
  destruct (getMnemonic_try js api) as [r|m]; eauto.
Qed.

Lemma getMnemonicForChar_failure js api c m :
  getMnemonic_try js api = Throw m →
  getMnemonicForChar js api c = (Normal None, [ConsoleError m]).
Proof. intros H. unfold getMnemonicForChar. by rewrite H. Qed.

(** C8, as the code behaves.  When the hint request fails (the request
    throws, for an authentication failure or any other reason, or the text of
    the response does not parse), [handleAnswer] clears the processing flag
    and leaves the progress record as the incorrect-answer step wrote it, but
    it sets no error: [globalError] and [hasKey] keep their values, and the
    failure is only written to the console. *)
Theorem handleAnswer_hint_failure (js : JsonHost) (api : ApiResult)
    (m : option string) (answer : string) (s : App) (q : JapaneseChar) :
  currentQuestion s = Some q →
  isCorrect q answer = false →
  getMnemonic_try js api = Throw m →
  let r := handleAnswer js api answer s in
  globalError r.1 = globalError s
  ∧ hasKey r.1 = hasKey s
  ∧ mnemonic r.1 = mnemonic s
  ∧ isProcessing r.1 = false
  ∧ progress r.1 = progressOnIncorrect (id q) (progress s)
  ∧ r.2 = [ConsoleError m].
Proof.
  intros Hq Hc Hfail r. subst r. unfold handleAnswer, handleAnswer_begin.
  change (currentQuestion (setIsProcessing true s)) with (currentQuestion s).
  rewrite Hq, Hc, (getMnemonicForChar_failure _ _ _ _ Hfail). done.
Qed.

Lemma handleAnswer_hint_failure_witness :
  let r := handleAnswer sampleJson (ApiThrows (Some ENTITY_NOT_FOUND)) "ka"
             sampleApp in
  isEntityNotFound (Some ENTITY_NOT_FOUND) = true
  ∧ globalError r.1 = None
  ∧ hasKey r.1 = None
  ∧ isProcessing r.1 = false
  ∧ r.2 = [ConsoleError (Some ENTITY_NOT_FOUND)].
Proof.
  intros r.
  destruct (handleAnswer_hint_failure sampleJson
              (ApiThrows (Some ENTITY_NOT_FOUND)) (Some ENTITY_NOT_FOUND)
              "ka" sampleApp sampleQuestion eq_refl eq_refl eq_refl)
    as (He & Hk & _ & Hp & _ & Hlog).
  by repeat split.
Defined.

(** A response whose text is not JSON fails in the same silent way. *)
Example malformed_payload_silent :
  let r := handleAnswer sampleJson (ApiResponse (Some "not json")) "ka"
             sampleApp in
  globalError r.1 = None ∧ isProcessing r.1 = false
  ∧ r.2 = [ConsoleError (Some "Unexpected token")].
Proof. by repeat split. Qed.

(** ** Classifier *)

(** C9. [getStatus] is [Completed] exactly for the ids in [masteredIds], else
    [In_progress] when the success counter is above zero, else
    [Not_started]; [getProficiency] reads the success counter alone: at least
    8 is [Advanced], at least 5 is [Intermediate], above zero is [Beginner],
    zero is [PNone].  An incorrect answer can lower the proficiency of a
    mastered item while its status stays [Completed]. *)
Theorem classifier_spec (p : UserProgress) (charId : string) :
  let c := default 0 (successCounts p !! charId) in
  (getStatus p charId = Completed ↔ charId ∈ masteredIds p)
  ∧ getStatus p charId
    = (if decide (charId ∈ masteredIds p) then Completed
       else if decide (0 < c) then In_progress else Not_started)
  ∧ getProficiency p charId
    = (if decide (8 ≤ c) then Advanced
       else if decide (5 ≤ c) then Intermediate
       else if decide (0 < c) then Beginner else PNone)
  ∧ (c = 0 → getProficiency p charId = PNone)
  ∧ (∀ p', successCounts p' !! charId = successCounts p !! charId →
           getProficiency p' charId = getProficiency p charId)
  ∧ (charId ∈ masteredIds p → c = 5 →
     getProficiency p charId = Intermediate
     ∧ getProficiency (progressOnIncorrect charId p) charId = Beginner
     ∧ getStatus (progressOnIncorrect charId p) charId = Completed).
Proof.
  intros c.
  assert (Hs : getStatus p charId
    = (if decide (charId ∈ masteredIds p) then Completed
       else if decide (0 < c) then In_progress else Not_started)).
  { unfold getStatus, includes. rewrite orZero_default. fold c.
    destruct (decide (charId ∈ masteredIds p)) as [Hin|Hin].
    - by rewrite bool_decide_eq_true_2.
    - rewrite bool_decide_eq_false_2 by done.
      destruct (Z.ltb_spec 0 c); case_decide; (done || lia). }
  assert (Hp : ∀ p0, getProficiency p0 charId
    = (let c := default 0 (successCounts p0 !! charId) in
       if decide (8 ≤ c) then Advanced
       else if decide (5 ≤ c) then Intermediate
       else if decide (0 < c) then Beginner else PNone)).
  { intros p0. unfold getProficiency, PROFICIENCY_ADVANCED,
      PROFICIENCY_INTERMEDIATE. rewrite orZero_default. simpl.
    set (c0 := default 0 (successCounts p0 !! charId)).
    destruct (Z.leb_spec 8 c0), (Z.leb_spec 5 c0), (Z.ltb_spec 0 c0);
      repeat case_decide; (done || lia). }
  split.
  { rewrite Hs. destruct (decide (charId ∈ masteredIds p)); [done|].
    split; [|done]. by case_decide. }
  split; [done|]. split; [apply Hp|].
  split.
  { intros H0. rewrite Hp. simpl. fold c. rewrite H0. done. }
  split.
  { intros p' Heq. rewrite !Hp. simpl. by rewrite Heq. }
  intros Hin H5. split; [rewrite Hp; simpl; fold c; by rewrite H5|].
  split.
  - rewrite Hp. simpl. rewrite lookup_insert_eq, orZero_default. fold c.
    rewrite H5. done.
  - unfold getStatus, includes. simpl. by rewrite bool_decide_eq_true_2.
Qed.

Lemma classifier_spec_witness :
  let p := {| masteredIds := ["h-a"]; weakIds := ∅;
              successCounts := {["h-a" := 5]} |} in
  getProficiency emptyProgress "h-a" = PNone
  ∧ getProficiency p "h-a" = Intermediate
  ∧ getProficiency (progressOnIncorrect "h-a" p) "h-a" = Beginner
  ∧ getStatus (progressOnIncorrect "h-a" p) "h-a" = Completed.
Proof.
  intros p.
  destruct (classifier_spec emptyProgress "h-a") as (_ & _ & _ & H0 & _).
  destruct (classifier_spec p "h-a") as (_ & _ & _ & _ & _ & H5).
  split; [exact (H0 eq_refl)|].
  exact (H5 (list_elem_of_here _ _) eq_refl).
Defined.

(** ** Frame properties *)

Lemma step_weak_mono cat js s e k n :
  ProgressInv (progress s) →
  weakIds (progress s) !! k = Some n →
  ∃ n', weakIds (progress (step cat js s e)) !! k = Some n' ∧ n ≤ n'.
Proof.
  intros [Hw _] Hk.
  destruct (step_progress cat js s e) as [->|(q & _ & [-> | ->])];
    [exists n; split; [done|lia] ..|].
  simpl. rewrite lookup_insert. case_decide as Hid.
  - subst k. rewrite orZero_default, Hk. simpl. eexists; split; [done|lia].
  - exists n. split; [done|lia].
Qed.

Lemma run_weak_mono cat js s es k n :
  ProgressInv (progress s) →
  weakIds (progress s) !! k = Some n →
  ∃ n', weakIds (progress (run cat js s es)) !! k = Some n' ∧ n ≤ n'.
Proof.
  intros Hinv Hk. induction es as [|e es IH] using rev_ind.
  - exists n. split; [done|lia].
  - destruct IH as (n1 & Hk1 & Hle). rewrite run_snoc.
    destruct (step_weak_mono cat js (run cat js s es) e k n1
                (ProgressInv_run _ _ _ _ Hinv) Hk1) as (n' & Hk' & Hle').
    exists n'. split; [done|lia].
Qed.

Lemma truthy_Some (x : option Z) :
  truthy x = true ↔ ∃ n, x = Some n ∧ n ≠ 0.
Proof.
  destruct x as [n|]; simpl.
  - rewrite negb_true_iff, bool_decide_eq_false. split.
    + intros Hn. by exists n.
    + by intros (n' & [= <-] & Hn).
  - split; [done|]. by intros (n & Hn & _).
Qed.

Lemma getDiscoveredPool_grows p p' catalog :
  masteredIds p ⊆ masteredIds p' →
  getDiscoveredPool p catalog ⊆ getDiscoveredPool p' catalog.
Proof.
  intros Hsub c. unfold getDiscoveredPool, slice0.
  rewrite !categoryMasteredCount_spec, !elem_of_take.
  intros (i & Hi & Hlt). exists i. split; [done|].
  pose proof (masteredCount_mono p p' catalog Hsub). lia.
Qed.

(** C10. A correct answer leaves [weakIds] as it was, whether or not the item
    is or becomes mastered; an incorrect answer leaves [masteredIds] as it
    was.  With counters that are not negative, no event lowers or removes a
    mistake count, so an item of the review pool stays in the review pool. *)
Theorem handleAnswer_frame (cat : Catalogs) (js : JsonHost) (api : ApiResult)
    (answer : string) (s : App) (q : JapaneseChar) :
  currentQuestion s = Some q →
  let s' := (handleAnswer js api answer s).1 in
  (isCorrect q answer = true → weakIds (progress s') = weakIds (progress s))
  ∧ (isCorrect q answer = false →
     masteredIds (progress s') = masteredIds (progress s))
  ∧ (ProgressInv (progress s) →
     ∀ es,
       let s'' := run cat js s es in
       (∀ k n, weakIds (progress s) !! k = Some n →
               ∃ n', weakIds (progress s'') !! k = Some n' ∧ n ≤ n')
       ∧ (∀ catalog c,
            c ∈ weakFilter (progress s) (getDiscoveredPool (progress s) catalog) →
            c ∈ weakFilter (progress s'')
                  (getDiscoveredPool (progress s'') catalog))).
Proof.
  intros Hq s'. subst s'.
  rewrite (handleAnswer_progress js api answer s q Hq).
  split; [by intros ->|]. split; [by intros ->|].
  intros Hinv es s''. split.
  { intros k n Hk. by apply run_weak_mono. }
  intros catalog c. unfold weakFilter. rewrite !list_elem_of_filter.
  intros [Hweak Hc]. split.
  - apply truthy_Some in Hweak as (n & Hk & Hn).
    destruct (run_weak_mono cat js s es _ _ Hinv Hk) as (n' & Hk' & Hle).
    apply truthy_Some. exists n'. split; [done|].
    destruct Hinv as [Hw _]. apply Hw in Hk. lia.
  - revert Hc. apply getDiscoveredPool_grows, run_keeps_mastered.
Qed.

Lemma handleAnswer_frame_witness :
  weakIds (progress weakApp) !! "h-a" = Some 1
  ∧ weakIds (progress (handleAnswer sampleJson (ApiThrows None) "a"
                         weakApp).1)
    = weakIds (progress weakApp)
  ∧ masteredIds (progress (handleAnswer sampleJson (ApiThrows None) "ka"
                             masteredApp).1)
    = masteredIds (progress masteredApp).
Proof.
  split; [reflexivity|]. split.
  - refine (proj1 (handleAnswer_frame sampleCatalogs sampleJson
                     (ApiThrows None) "a" weakApp sampleQuestion eq_refl)
              eq_refl).
  - refine (proj1 (proj2 (handleAnswer_frame sampleCatalogs sampleJson
                     (ApiThrows None) "ka" masteredApp sampleQuestion
                     eq_refl)) eq_refl).
Defined.

(** * Further properties of the code *)

(** ** The progress record along a run *)

Lemma progressOnCorrect_prefix qid p :
  masteredIds p `prefix_of` masteredIds (progressOnCorrect qid p).
Proof.
  rewrite progressOnCorrect_mastered. case_decide; [|done].
  by apply prefix_app_r.
Qed.

Lemma progressOnCorrect_length qid p :
  (length (masteredIds (progressOnCorrect qid p))
   ≤ S (length (masteredIds p)))%nat.
Proof.
  rewrite progressOnCorrect_mastered. case_decide; [|lia].
  rewrite length_app. simpl. lia.
Qed.

Lemma MasteredInv_empty : MasteredInv emptyProgress.
Proof.
  split; [constructor|]. intros k v. simpl. by rewrite lookup_empty.
Qed.

Lemma MasteredInv_correct qid p :
  MasteredInv p → MasteredInv (progressOnCorrect qid p).
Proof.
  intros [Hnd Hinv]. split.
  - rewrite progressOnCorrect_mastered. case_decide as Hd; [|done].
    destruct Hd as [_ Hnotin]. apply NoDup_app. split; [done|].
    split; [|apply NoDup_singleton].
    intros x Hx Hx'. apply list_elem_of_singleton in Hx'. by subst.
  - intros k v Hk Hv. rewrite progressOnCorrect_mastered.
    simpl in Hk. rewrite lookup_insert in Hk. case_decide as Hid.
    + subst k. injection Hk as <-. rewrite orZero_default in Hv.
      case_decide as Hd.
      * apply elem_of_app. right. apply list_elem_of_here.
      * destruct (decide (qid ∈ masteredIds p)) as [Hin|Hnotin]; [done|].
        exfalso. apply Hd. by split.
    + case_decide; [apply elem_of_app; left|]; by eapply Hinv.
Qed.

Lemma MasteredInv_incorrect qid p :
  MasteredInv p → ProgressInv p → MasteredInv (progressOnIncorrect qid p).
Proof.
  intros [Hnd Hinv] [_ Hs]. split; [done|].
  intros k v Hk Hv. simpl in *. rewrite lookup_insert in Hk.
  case_decide as Hid; [|by eapply Hinv].
  subst k. injection Hk as <-. rewrite orZero_default in Hv.
  destruct (successCounts p !! qid) as [v|] eqn:Hq; simpl in Hv.
  - apply (Hinv qid v Hq). unfold MASTERY_THRESHOLD in *. lia.
  - unfold MASTERY_THRESHOLD in Hv. lia.
Qed.

Lemma MasteredInv_run cat js s es :
  ProgressInv (progress s) → MasteredInv (progress s) →
  MasteredInv (progress (run cat js s es)).
Proof.
  intros Hp Hm. induction es as [|e es IH] using rev_ind; [done|].
  rewrite run_snoc.
  pose proof (ProgressInv_run cat js s es Hp) as Hp'.
  destruct (step_progress cat js (run cat js s es) e)
    as [->|(q & _ & [-> | ->])];
    [done|by apply MasteredInv_correct|by apply MasteredInv_incorrect].
Qed.

Lemma run_mastered_prefix cat js s es :
  masteredIds (progress s) `prefix_of` masteredIds (progress (run cat js s es)).
Proof.
  induction es as [|e es IH] using rev_ind; [done|].
  rewrite run_snoc. etrans; [exact IH|].
  destruct (step_progress cat js (run cat js s es) e)
    as [->|(q & _ & [-> | ->])]; [done|apply progressOnCorrect_prefix|done].
Qed.

Lemma step_mastered_length cat js s e :
  (totalMasteredCount (step cat js s e) ≤ S (totalMasteredCount s))%nat.
Proof.
  unfold totalMasteredCount.
  destruct (step_progress cat js s e) as [->|(q & _ & [-> | ->])];
    [lia|apply progressOnCorrect_length|simpl; lia].
Qed.

(** X1. [masteredIds] is append-only: after any sequence of events the list
    before is a prefix of the list after, so the total shown in the
    navigation bar never goes down, and one event raises it by at most one.
    Started without duplicates, the list never holds an id twice. *)
Theorem masteredIds_append_only (cat : Catalogs) (js : JsonHost) (s : App)
    (es : list Event) (e : Event) :
  NoDup (masteredIds (progress s)) →
  let s' := run cat js s es in
  masteredIds (progress s) `prefix_of` masteredIds (progress s')
  ∧ (totalMasteredCount s ≤ totalMasteredCount s')%nat
  ∧ (totalMasteredCount (step cat js s' e) ≤ S (totalMasteredCount s'))%nat
  ∧ NoDup (masteredIds (progress s')).
Proof.
  intros Hnd s'. split; [apply run_mastered_prefix|].
  split; [apply prefix_length, run_mastered_prefix|].
  split; [apply step_mastered_length|].
  subst s'. clear e. induction es as [|e es IH] using rev_ind; [done|].
  rewrite run_snoc.
  destruct (step_progress cat js (run cat js s es) e)
    as [->|(q & _ & [-> | ->])]; [done| |done].
  rewrite progressOnCorrect_mastered. case_decide as Hd; [|done].
  apply NoDup_app. split; [done|]. split; [|apply NoDup_singleton].
  intros x Hx Hx'. apply list_elem_of_singleton in Hx'. subst.
  by destruct Hd.
Qed.

Lemma masteredIds_append_only_witness :
  masteredIds (progress sampleApp) `prefix_of` masteredIds (progress masteredApp)
  ∧ (totalMasteredCount sampleApp ≤ totalMasteredCount masteredApp)%nat
  ∧ NoDup (masteredIds (progress masteredApp)).
Proof.
  destruct (masteredIds_append_only sampleCatalogs sampleJson sampleApp
              [E_handleAnswer (ApiThrows None) "a";
               E_handleAnswer (ApiThrows None) "a";
               E_handleAnswer (ApiThrows None) "a"] E_nextQuestion)
    as (H1 & H2 & _ & H4); [constructor|].
  by repeat split.
Defined.

(** X2. In every state reached from a record with non-negative counters in
    which each counter of 3 or more belongs to a mastered id (the empty
    record is one), that still holds; so every item whose proficiency is
    Intermediate or Advanced has status Completed. *)
Theorem proficient_is_completed (cat : Catalogs) (js : JsonHost) (s : App)
    (es : list Event) (charId : string) :
  ProgressInv (progress s) →
  MasteredInv (progress s) →
  let p := progress (run cat js s es) in
  MasteredInv p
  ∧ (getProficiency p charId = Intermediate ∨ getProficiency p charId = Advanced
     → getStatus p charId = Completed).
Proof.
  intros Hp Hm p.
  pose proof (MasteredInv_run cat js s es Hp Hm) as Hinv. fold p in Hinv.
  split; [done|]. intros Hprof.
  assert (Hin : charId ∈ masteredIds p).
  { destruct Hinv as [_ Hinv].
    unfold getProficiency, PROFICIENCY_ADVANCED, PROFICIENCY_INTERMEDIATE in Hprof.
    rewrite orZero_default in Hprof.
    destruct (successCounts p !! charId) as [v|] eqn:Hv; simpl in Hprof.
    - apply (Hinv charId v Hv). unfold MASTERY_THRESHOLD.
      destruct (Z.leb_spec 8 v); [lia|].
      destruct (Z.leb_spec 5 v); [lia|].
      destruct (0 <? v); destruct Hprof; discriminate.
    - destruct Hprof; discriminate. }
  unfold getStatus, includes. by rewrite bool_decide_eq_true_2.
Qed.

Lemma proficient_is_completed_witness :
  let s' := run sampleCatalogs sampleJson sampleApp
              (replicate 5 (E_handleAnswer (ApiThrows None) "a")) in
  getProficiency (progress s') "h-a" = Intermediate
  ∧ getStatus (progress s') "h-a" = Completed.
Proof.
  intros s'. split; [reflexivity|].
  apply (proficient_is_completed sampleCatalogs sampleJson sampleApp
           (replicate 5 (E_handleAnswer (ApiThrows None) "a")) "h-a"
           ProgressInv_empty MasteredInv_empty).
  left. reflexivity.
Defined.

(** X3. An id enters [masteredIds] only when its success counter reaches the
    threshold: if an id is not mastered before a run and is mastered after
    it, then at some point of the run its counter was at least 3. *)
Theorem mastered_reached_threshold (cat : Catalogs) (js : JsonHost) (s : App)
    (es : list Event) (x : string) :
  x ∉ masteredIds (progress s) →
  x ∈ masteredIds (progress (run cat js s es)) →
  ∃ es1 es2 v,
    es = (es1 ++ es2)%list
    ∧ successCounts (progress (run cat js s es1)) !! x = Some v
    ∧ MASTERY_THRESHOLD ≤ v.
Proof.
  intros Hnot. induction es as [|e es IH] using rev_ind; [done|].
  rewrite run_snoc. intros Hin.
  destruct (decide (x ∈ masteredIds (progress (run cat js s es)))) as [Hb|Hb].
  { destruct (IH Hb) as (es1 & es2 & v & -> & Hv & Hle).
    exists es1, (es2 ++ [e])%list, v. by rewrite app_assoc. }
  exists (es ++ [e])%list, [].
  rewrite app_nil_r, run_snoc.
  destruct (step_progress cat js (run cat js s es) e)
    as [Heq|(q & _ & [Heq | Heq])]; rewrite Heq in Hin |- *; [done| |done].
  rewrite progressOnCorrect_mastered in Hin.
  case_decide as Hd; [|done]. destruct Hd as [Hle _].
  apply elem_of_app in Hin as [Hin|Hin]; [done|].
  apply list_elem_of_singleton in Hin. subst x.
  eexists. split; [done|]. split; [apply progressOnCorrect_count|done].
Qed.

Lemma mastered_reached_threshold_witness :
  ∃ es1 es2 v,
    replicate 3 (E_handleAnswer (ApiThrows None) "a") = (es1 ++ es2)%list
    ∧ successCounts (progress (run sampleCatalogs sampleJson sampleApp es1))
        !! "h-a" = Some v
    ∧ MASTERY_THRESHOLD ≤ v.
Proof.
  apply (mastered_reached_threshold sampleCatalogs sampleJson sampleApp
           (replicate 3 (E_handleAnswer (ApiThrows None) "a")) "h-a").
  - vm_compute. intros H. inversion H.
  - vm_compute. apply list_elem_of_here.
Defined.

(** ** Unlocking *)

Lemma getDiscoveredPool_take p catalog :
  getDiscoveredPool p catalog
  = take (INITIAL_INTRO_COUNT + masteredCountWithinCategory p catalog) catalog.
Proof.
  unfold getDiscoveredPool, slice0. rewrite categoryMasteredCount_spec.
  set (k := (INITIAL_INTRO_COUNT + _)%nat).
  destruct (decide (k ≤ length catalog)%nat).
  - by rewrite Nat.min_l by lia.
  - rewrite Nat.min_r by lia. rewrite !take_ge by lia. done.
Qed.

Lemma masteredCount_ext p p' catalog :
  (∀ c, c ∈ catalog → id c ∈ masteredIds p ↔ id c ∈ masteredIds p') →
  masteredCountWithinCategory p catalog = masteredCountWithinCategory p' catalog.
Proof.
  unfold masteredCountWithinCategory.
  induction catalog as [|c cs IH]; [done|]. intros Hext.
  rewrite !filter_cons.
  assert (Hc := Hext c (list_elem_of_here _ _)).
  assert (IH' : length (filter (λ c, id c ∈ masteredIds p) cs)
                = length (filter (λ c, id c ∈ masteredIds p') cs)).
  { apply IH. intros c' Hc'. apply Hext. by apply list_elem_of_further. }
  destruct (decide (id c ∈ masteredIds p)), (decide (id c ∈ masteredIds p'));
    simpl; rewrite ?IH'; tauto.
Qed.

Lemma masteredCount_snoc p p' catalog x :
  masteredIds p' = (masteredIds p ++ [x])%list →
  x ∉ masteredIds p →
  NoDup (id <$> catalog) →
  masteredCountWithinCategory p' catalog
  = (masteredCountWithinCategory p catalog
     + if decide (x ∈ id <$> catalog) then 1 else 0)%nat.
Proof.
  intros Hp' Hx. induction catalog as [|c cs IH]; [done|].
  rewrite fmap_cons, NoDup_cons. intros [Hc Hnd].
  specialize (IH Hnd). unfold masteredCountWithinCategory in *.
  rewrite !filter_cons.
  assert (Hiff : id c ∈ masteredIds p' ↔ id c ∈ masteredIds p ∨ id c = x).
  { rewrite Hp', elem_of_app, list_elem_of_singleton. tauto. }
  assert (Hiff' : x ∈ id c :: (id <$> cs) ↔ id c = x ∨ x ∈ id <$> cs).
  { rewrite elem_of_cons. split; (intros [?|?]; [by left|by right]). }
  destruct (decide (id c = x)) as [Heq|Hne].
  - rewrite Heq in Hc. rewrite decide_False in IH by done.
    rewrite (decide_True (P := id c ∈ masteredIds p')) by tauto.
    rewrite (decide_False (P := id c ∈ masteredIds p)) by congruence.
    rewrite (decide_True (P := x ∈ id c :: (id <$> cs))) by tauto.
    simpl. rewrite IH. lia.
  - destruct (decide (id c ∈ masteredIds p')), (decide (id c ∈ masteredIds p));
      try tauto;
      destruct (decide (x ∈ id c :: (id <$> cs))), (decide (x ∈ id <$> cs));
      try tauto; simpl; rewrite IH; lia.
Qed.

Lemma take_S_min {A} (l : list A) k :
  take (S (k `min` length l)) l = take (S k) l.
Proof.
  destruct (decide (k ≤ length l)%nat).
  - by rewrite Nat.min_l by lia.
  - rewrite Nat.min_r by lia. rewrite !take_ge by lia. done.
Qed.

(** X4. A correct answer that brings the current question to the mastery
    threshold for the first time unlocks exactly the next item of the catalog
    that holds the question (when ids are unique in it and an item is left),
    and changes no pool of a catalog that does not hold it.  A correct answer
    that masters nothing changes no pool. *)
Theorem mastery_unlocks_next (js : JsonHost) (api : ApiResult)
    (answer : string) (s : App) (q : JapaneseChar)
    (catalog : list JapaneseChar) :
  currentQuestion s = Some q →
  isCorrect q answer = true →
  NoDup (id <$> catalog) →
  let p := progress s in
  let p' := progress (handleAnswer js api answer s).1 in
  let n := length (getDiscoveredPool p catalog) in
  (MASTERY_THRESHOLD ≤ default 0 (successCounts p !! id q) + 1
   ∧ id q ∉ masteredIds p →
     (id q ∈ id <$> catalog →
      getDiscoveredPool p' catalog = take (S n) catalog
      ∧ length (getDiscoveredPool p' catalog) = (S n `min` length catalog)%nat)
     ∧ (id q ∉ id <$> catalog →
        getDiscoveredPool p' catalog = getDiscoveredPool p catalog))
  ∧ (¬ (MASTERY_THRESHOLD ≤ default 0 (successCounts p !! id q) + 1
        ∧ id q ∉ masteredIds p) →
     getDiscoveredPool p' catalog = getDiscoveredPool p catalog).
Proof.
  intros Hq Hc Hnd p p' n.
  destruct (handleAnswer_right js api answer s q Hq Hc) as [Hp _].
  fold p p' in Hp.
  assert (Hm : masteredIds p'
    = if decide (MASTERY_THRESHOLD ≤ default 0 (successCounts p !! id q) + 1
                 ∧ id q ∉ masteredIds p)
      then (masteredIds p ++ [id q])%list else masteredIds p).
  { rewrite Hp. apply progressOnCorrect_mastered. }
  split.
  - intros Hnew. rewrite decide_True in Hm by done. destruct Hnew as [_ Hnot].
    pose proof (masteredCount_snoc p p' catalog (id q) Hm Hnot Hnd) as Hcount.
    split; intros Hin.
    + rewrite decide_True in Hcount by done.
      assert (Hpool : getDiscoveredPool p' catalog = take (S n) catalog).
      { rewrite getDiscoveredPool_take, Hcount. unfold n.
        rewrite getDiscoveredPool_length, take_S_min. f_equal. lia. }
      split; [done|]. rewrite Hpool. apply length_take.
    + rewrite decide_False in Hcount by done.
      rewrite !getDiscoveredPool_take, Hcount. f_equal. lia.
  - intros Hold. rewrite decide_False in Hm by done.
    rewrite !getDiscoveredPool_take.
    rewrite (masteredCount_ext p' p catalog); [done|].
    intros c _. by rewrite Hm.
Qed.

Lemma mastery_unlocks_next_witness :
  let s2 := run sampleCatalogs sampleJson sampleApp
              (replicate 2 (E_handleAnswer (ApiThrows None) "a")) in
  let s3 := (handleAnswer sampleJson (ApiThrows None) "a" s2).1 in
  id <$> getDiscoveredPool (progress s3) (HIRAGANA sampleCatalogs)
  = id <$> take 11 (HIRAGANA sampleCatalogs)
  ∧ getDiscoveredPool (progress s3) (KATAKANA sampleCatalogs)
    = getDiscoveredPool (progress s2) (KATAKANA sampleCatalogs).
Proof.
  intros s2 s3.
  assert (Hh : NoDup (id <$> HIRAGANA sampleCatalogs))
    by (apply (bool_decide_unpack _); vm_compute; exact I).
  assert (Hk : NoDup (id <$> KATAKANA sampleCatalogs))
    by (apply (bool_decide_unpack _); vm_compute; exact I).
  destruct (mastery_unlocks_next sampleJson (ApiThrows None) "a" s2
              sampleQuestion (HIRAGANA sampleCatalogs) eq_refl eq_refl Hh)
    as [H1 _].
  destruct (mastery_unlocks_next sampleJson (ApiThrows None) "a" s2
              sampleQuestion (KATAKANA sampleCatalogs) eq_refl eq_refl Hk)
    as [H2 _].
  assert (Hnew : MASTERY_THRESHOLD
                 ≤ default 0 (successCounts (progress s2) !! id sampleQuestion) + 1
                 ∧ id sampleQuestion ∉ masteredIds (progress s2)).
  { split; [vm_compute; discriminate|]. vm_compute. intros H. inversion H. }
  destruct (H1 Hnew) as [H1in _]. destruct (H2 Hnew) as [_ H2out].
  split.
  - destruct H1in as [-> _]; [|reflexivity].
    vm_compute. apply list_elem_of_here.
  - apply H2out. apply (bool_decide_unpack _). vm_compute. exact I.
Defined.

(** ** The session cursor *)

Lemma handleAnswer_cursor js api answer s :
  currentIndex (quiz (handleAnswer js api answer s).1) = currentIndex (quiz s)
  ∧ questions (quiz (handleAnswer js api answer s).1) = questions (quiz s).
Proof.
  destruct (currentQuestion s) as [q|] eqn:Hq.
  - rewrite (handleAnswer_quiz js api answer s q Hq).
    by destruct (isCorrect q answer).
  - destruct (handleAnswer_no_question js api answer s Hq) as [_ ->]. done.
Qed.

Lemma handleAnswer_begin_quiz answer s :
  quiz (handleAnswer_begin answer s).1.1
  = match currentQuestion s with
    | Some q => if isCorrect q answer then scoreUp (quiz s)
                else addMistake (id q) (quiz s)
    | None => quiz s
    end.
Proof.
  unfold handleAnswer_begin.
  change (currentQuestion (setIsProcessing true s)) with (currentQuestion s).
  destruct (currentQuestion s) as [q|]; [|done].
  by destruct (isCorrect q answer).
Qed.

Lemma CursorInv_quiz s s' :
  currentIndex (quiz s') = currentIndex (quiz s) →
  questions (quiz s') = questions (quiz s) →
  CursorInv s → CursorInv s'.
Proof. unfold CursorInv. by intros -> ->. Qed.

Lemma CursorInv_fresh s l : quiz s = freshQuiz l → CursorInv s.
Proof.
  intros Hz. unfold CursorInv. rewrite Hz. simpl.
  destruct l; [by left|right; simpl; lia].
Qed.

Lemma nextQuestion_of_current s : nextQuestion_of (quiz s) s = nextQuestion s.
Proof. reflexivity. Qed.

Lemma CursorInv_next rendered s :
  currentIndex rendered = currentIndex (quiz s) →
  questions rendered = questions (quiz s) →
  CursorInv s → CursorInv (nextQuestion_of rendered s).
Proof.
  intros Hi Hq Hinv. unfold nextQuestion_of. rewrite Hi, Hq.
  destruct (Z.ltb_spec (currentIndex (quiz s))
              (Z.of_nat (length (questions (quiz s))) - 1)); [|done].
  unfold CursorInv in *. simpl. right.
  destruct Hinv as [[Hnil H0]|?]; [rewrite Hnil, H0 in *; simpl in *; lia|lia].
Qed.

Lemma CursorInv_step cat js s e :
  timerIsFresh s e → CursorInv s → CursorInv (step cat js s e).
Proof.
  intros Hfresh Hinv.
  destruct e as [rnd type_ review|api answer|answer|r| | | | |v|rendered];
    simpl.
  - unfold startQuiz.
    destruct (sessionSource cat (progress s) type_) as [[pool count]|]; [|done].
    destruct (review && _); [done|]. by eapply CursorInv_fresh.
  - destruct (handleAnswer_cursor js api answer s) as [Hi Hq].
    by apply (CursorInv_quiz s).
  - apply (CursorInv_quiz s); [| |done]; rewrite handleAnswer_begin_quiz;
      destruct (currentQuestion s) as [q|]; try done;
      by destruct (isCorrect q answer).
  - apply (CursorInv_quiz s); [| |done]; by rewrite afterHint_quiz.
  - by apply (CursorInv_next (quiz s) s).
  - by left.
  - done.
  - done.
  - done.
  - destruct Hfresh as [Hi Hq]. by apply CursorInv_next.
Qed.

Lemma CursorInv_question s :
  CursorInv s → questions (quiz s) ≠ [] →
  ∃ q, currentQuestion s = Some q ∧ q ∈ questions (quiz s).
Proof.
  intros [[Hnil _]|[H0 Hlt]] Hne; [done|].
  unfold currentQuestion.
  destruct (Z.ltb_spec (currentIndex (quiz s)) 0); [lia|].
  destruct (lookup_lt_is_Some_2 (questions (quiz s))
              (Z.to_nat (currentIndex (quiz s)))) as [q Hq]; [lia|].
  exists q. split; [done|]. by eapply list_elem_of_lookup_2.
Qed.

Lemma CursorInv_run cat js es :
  ∀ s, timersFresh cat js s es → CursorInv s → CursorInv (run cat js s es).
Proof.
  induction es as [|e es IH]; intros s; simpl; [done|].
  intros [Hfresh Hrest] Hinv. apply IH; [done|]. by apply CursorInv_step.
Qed.

(** X5. The session cursor stays inside the question list as long as no timer
    fires with an outdated closure: from a state whose cursor is in range
    (the first render, every fresh session), after any sequence of events in
    which each timer of a correct answer fires while the session still has
    the cursor and the questions its closure saw, the cursor is in range,
    and whenever the session has questions [currentQuestion] is one of them,
    so [handleAnswer] finds a question to judge. *)
Theorem cursor_in_range (cat : Catalogs) (js : JsonHost) (s : App)
    (es : list Event) :
  CursorInv s →
  timersFresh cat js s es →
  let s' := run cat js s es in
  CursorInv s'
  ∧ (questions (quiz s') ≠ [] →
     ∃ q, currentQuestion s' = Some q ∧ q ∈ questions (quiz s')
          ∧ ∀ api answer,
              UncaughtTypeError ∉ (handleAnswer js api answer s').2).
Proof.
  intros Hinv Hfresh s'.
  pose proof (CursorInv_run cat js es s Hfresh Hinv) as Hinv'.
  split; [done|]. intros Hne.
  destruct (CursorInv_question s' Hinv' Hne) as (q & Hq & Hin).
  exists q. split; [done|]. split; [done|].
  intros api answer. unfold handleAnswer, handleAnswer_begin.
  change (currentQuestion (setIsProcessing true s')) with (currentQuestion s').
  rewrite Hq. destruct (isCorrect q answer).
  - intros Hbad. apply list_elem_of_singleton in Hbad. discriminate.
  - unfold getMnemonicForChar. destruct (getMnemonic_try js api); simpl.
    + intros Hbad. inversion Hbad.
    + intros Hbad. apply list_elem_of_singleton in Hbad. discriminate.
Qed.

Lemma cursor_in_range_witness :
  let s' := run sampleCatalogs sampleJson sampleApp
              [E_handleAnswer (ApiThrows None) "a";
               E_timerFires (quiz sampleApp); E_nextQuestion;
               E_resetToHome; E_startQuiz reverseShuffle katakana false;
               E_nextQuestion] in
  currentIndex (quiz s') = 1 ∧ CursorInv s'.
Proof.
  intros s'. split; [reflexivity|].
  apply (cursor_in_range sampleCatalogs sampleJson sampleApp).
  - right. simpl. lia.
  - simpl. by repeat split.
Defined.

(** X20. A timer that fires after the user has left the quiz works on the
    wrong session.  After a correct answer, Quit, and then the timer of that
    answer: when the answered question was not the last one, the cursor of
    the emptied session moves to 1 while the view stays home, so the cursor
    is outside the (empty) question list; when it was the last one, the
    user is taken from the home view to the review screen of an empty
    session. *)
Theorem stale_timer_after_quit (cat : Catalogs) (js : JsonHost)
    (api : ApiResult) (answer : string) (s : App) (q : JapaneseChar) :
  currentQuestion s = Some q →
  isCorrect q answer = true →
  let s' := run cat js s
              [E_handleAnswer api answer; E_resetToHome;
               E_timerFires (quiz s)] in
  isProcessing s' = false
  ∧ questions (quiz s') = []
  ∧ (currentIndex (quiz s) < Z.of_nat (length (questions (quiz s))) - 1 →
     currentIndex (quiz s') = 1 ∧ view s' = v_home
     ∧ ¬ CursorInv s' ∧ currentQuestion s' = None)
  ∧ (¬ currentIndex (quiz s) < Z.of_nat (length (questions (quiz s))) - 1 →
     view s' = v_review ∧ quiz s' = inactiveQuiz).
Proof.
  intros Hq Hc s'. subst s'. simpl. unfold nextQuestion_of.
  destruct (Z.ltb_spec (currentIndex (quiz s))
              (Z.of_nat (length (questions (quiz s))) - 1)) as [Hlt|Hge];
    simpl.
  - split; [done|]. split; [done|]. split; [|by intros Hn].
    intros _. split; [done|]. split; [done|]. split; [|done].
    unfold CursorInv. simpl. intros [[_ Hbad]|Hbad]; [discriminate|lia].
  - split; [done|]. split; [done|]. split; [intros Hlt; lia|by intros _].
Qed.

Lemma stale_timer_after_quit_witness :
  let s' := run sampleCatalogs sampleJson sampleApp
              [E_handleAnswer (ApiThrows None) "a"; E_resetToHome;
               E_timerFires (quiz sampleApp)] in
  currentIndex (quiz s') = 1 ∧ questions (quiz s') = [] ∧ view s' = v_home.
Proof.
  intros s'.
  destruct (stale_timer_after_quit sampleCatalogs sampleJson (ApiThrows None)
              "a" sampleApp sampleQuestion eq_refl eq_refl)
    as (_ & Hqs & Hstale & _).
  destruct Hstale as (Hi & Hv & _); [vm_compute; reflexivity|].
  by repeat split.
Defined.

(** ** Scoring a session *)

Local Ltac answered :=
  split;
  [ intros _; simpl; rewrite ?length_app; simpl; lia
  | split;
    [ intros Hn; exfalso; apply Hn; split; [done|by eexists]
    | split;
      [ simpl; lia
      | split; [first [done | by apply prefix_app_r] | done] ] ] ].

Local Ltac unanswered :=
  split;
  [ intros [Ha [q' Hq']]; discriminate
  | split; [done | split; [simpl; lia | split; done] ] ].

Lemma step_score cat js s e :
  keepsSession e = true →
  let s' := step cat js s e in
  (isAnswerEvent e = true ∧ is_Some (currentQuestion s) →
   score (quiz s') + Z.of_nat (length (mistakes (quiz s')))
   = score (quiz s) + Z.of_nat (length (mistakes (quiz s))) + 1)
  ∧ (¬ (isAnswerEvent e = true ∧ is_Some (currentQuestion s)) →
     score (quiz s') = score (quiz s)
     ∧ mistakes (quiz s') = mistakes (quiz s))
  ∧ score (quiz s) ≤ score (quiz s')
  ∧ mistakes (quiz s) `prefix_of` mistakes (quiz s')
  ∧ questions (quiz s') = questions (quiz s).
Proof.
  intros Hk s'. subst s'.
  destruct e as [rnd type_ review|api answer|answer|r| | | | |v|rendered];
    try discriminate; simpl.
  - destruct (currentQuestion s) as [q|] eqn:Hq.
    + rewrite (handleAnswer_quiz js api answer s q Hq).
      destruct (isCorrect q answer); answered.
    + destruct (handleAnswer_no_question js api answer s Hq) as [_ ->].
      unanswered.
  - rewrite handleAnswer_begin_quiz.
    destruct (currentQuestion s) as [q|] eqn:Hq.
    + destruct (isCorrect q answer); answered.
    + unanswered.
  - rewrite afterHint_quiz. unanswered.
  - unfold nextQuestion. destruct (_ <? _); simpl; unanswered.
  - unanswered.
  - unanswered.
  - unanswered.
  - unfold nextQuestion_of. destruct (_ <? _); simpl; unanswered.
Qed.

Lemma run_score cat js es :
  ∀ s, Forall (λ e, keepsSession e = true) es →
    let s' := run cat js s es in
    score (quiz s') + Z.of_nat (length (mistakes (quiz s')))
    = score (quiz s) + Z.of_nat (length (mistakes (quiz s)))
      + Z.of_nat (answeredCount cat js s es)
    ∧ score (quiz s) ≤ score (quiz s')
    ∧ mistakes (quiz s) `prefix_of` mistakes (quiz s')
    ∧ questions (quiz s') = questions (quiz s).
Proof.
  induction es as [|e es IH]; intros s Hes; simpl.
  { repeat split; try lia; done. }
  apply Forall_cons in Hes as [He Hes].
  destruct (IH (step cat js s e) Hes) as (Hsum & Hsc & Hmis & Hqs).
  destruct (step_score cat js s e He) as (Hans & Hno & Hsc' & Hmis' & Hqs').
  change (foldl (step cat js) (step cat js s e) es)
    with (run cat js (step cat js s e) es).
  split.
  { rewrite Hsum.
    destruct (isAnswerEvent e) eqn:Ha; simpl.
    - case_bool_decide as Hq.
      + rewrite Hans by done. lia.
      + destruct Hno as [-> ->]; [tauto|]. lia.
    - destruct Hno as [-> ->]; [by intros [? _]|]. lia. }
  split; [lia|]. split; [by etrans|]. by rewrite Hqs, Hqs'.
Qed.

Lemma answeredCount_fresh cat js es :
  ∀ s, Forall (λ e, keepsSession e = true) es →
    CursorInv s → questions (quiz s) ≠ [] → timersFresh cat js s es →
    answeredCount cat js s es
    = length (filter (λ e, isAnswerEvent e = true) es).
Proof.
  induction es as [|e es IH]; intros s Hes Hinv Hne Hfresh; simpl; [done|].
  apply Forall_cons in Hes as [He Hes]. destruct Hfresh as [Hf Hfs].
  destruct (step_score cat js s e He) as (_ & _ & _ & _ & Hqs').
  rewrite (IH (step cat js s e)); [|done|by apply CursorInv_step
                                  |by rewrite Hqs'|done].
  destruct (CursorInv_question s Hinv Hne) as (q & Hq & _).
  rewrite filter_cons, Hq.
  rewrite (bool_decide_eq_true_2 (is_Some (Some q))) by by eexists.
  rewrite andb_true_r.
  by destruct (isAnswerEvent e), (decide _).
Qed.

(** X6. Within a session every call of [handleAnswer] that finds a current
    question is counted once, as a point or as a mistake, and a call that
    finds none counts nothing: after any events that keep the session, score
    plus number of mistakes has grown by the number of answer events that
    found a question, the score has not gone down, and the mistakes recorded
    before are still there, in order.  When the session has questions, its
    cursor starts in range and no timer fires with an outdated closure,
    every answer event finds a question, so the sum grows by the number of
    answer events. *)
Theorem answers_counted_once (cat : Catalogs) (js : JsonHost) (s : App)
    (es : list Event) :
  Forall (λ e, keepsSession e = true) es →
  let s' := run cat js s es in
  score (quiz s') + Z.of_nat (length (mistakes (quiz s')))
  = score (quiz s) + Z.of_nat (length (mistakes (quiz s)))
    + Z.of_nat (answeredCount cat js s es)
  ∧ score (quiz s) ≤ score (quiz s')
  ∧ mistakes (quiz s) `prefix_of` mistakes (quiz s')
  ∧ questions (quiz s') = questions (quiz s)
  ∧ (CursorInv s → questions (quiz s) ≠ [] → timersFresh cat js s es →
     answeredCount cat js s es
     = length (filter (λ e, isAnswerEvent e = true) es)).
Proof.
  intros Hes s'.
  destruct (run_score cat js es s Hes) as (Hsum & Hsc & Hmis & Hqs).
  do 4 (split; [done|]). intros Hinv Hne Hfresh.
  by apply answeredCount_fresh.
Qed.

Lemma answers_counted_once_witness :
  let es := [E_handleAnswer (ApiThrows None) "ka";
             E_handleAnswer (ApiThrows None) "ka";
             E_handleAnswer (ApiThrows None) "a";
             E_timerFires (quiz sampleApp)] in
  let s' := run sampleCatalogs sampleJson sampleApp es in
  score (quiz s') = 1 ∧ mistakes (quiz s') = ["h-a"; "h-a"]
  ∧ score (quiz s') + Z.of_nat (length (mistakes (quiz s'))) = 3
  ∧ answeredCount sampleCatalogs sampleJson sampleApp es = 3%nat.
Proof.
  intros es s'. split; [reflexivity|]. split; [reflexivity|].
  destruct (answers_counted_once sampleCatalogs sampleJson sampleApp es)
    as (Hsum & _ & _ & _ & Hcount); [by repeat constructor|].
  split; [exact Hsum|]. apply Hcount.
  - right. simpl. lia.
  - discriminate.
  - simpl. by repeat split.
Defined.

Lemma currentQuestion_drop s (i : nat) q rest :
  currentIndex (quiz s) = Z.of_nat i →
  drop i (questions (quiz s)) = q :: rest →
  currentQuestion s = Some q
  ∧ Z.of_nat (length (questions (quiz s)))
    = Z.of_nat i + 1 + Z.of_nat (length rest)
  ∧ drop (S i) (questions (quiz s)) = rest.
Proof.
  intros Hi Hd. unfold currentQuestion. rewrite Hi.
  destruct (Z.ltb_spec (Z.of_nat i) 0); [lia|].
  rewrite Nat2Z.id.
  pose proof (lookup_drop (questions (quiz s)) i 0) as Hl.
  rewrite Hd, Nat.add_0_r in Hl. simpl in Hl. symmetry in Hl.
  pose proof (length_drop (questions (quiz s)) i) as Hlen.
  rewrite Hd in Hlen. simpl in Hlen.
  apply lookup_lt_Some in Hl as Hlt.
  split; [done|]. split; [lia|].
  replace (S i) with (i + 1)%nat by lia. by rewrite <- drop_drop, Hd.
Qed.

Lemma perfect_from cat js api :
  ∀ rest q a answers s (i : nat),
    currentIndex (quiz s) = Z.of_nat i →
    drop i (questions (quiz s)) = q :: rest →
    Forall2 (λ q a, correctAnswer q = Some a) (q :: rest) (a :: answers) →
    let s' := run cat js s (perfectEvents api (a :: answers)) in
    view s' = v_review
    ∧ score (quiz s') = score (quiz s) + Z.of_nat (length (q :: rest))
    ∧ mistakes (quiz s') = mistakes (quiz s)
    ∧ questions (quiz s') = questions (quiz s)
    ∧ currentIndex (quiz s') = Z.of_nat (length (questions (quiz s))) - 1
    ∧ isProcessing s' = false
    ∧ mnemonic s' = None
    ∧ weakIds (progress s') = weakIds (progress s).
Proof.
  induction rest as [|q' rest IH]; intros q a answers s i Hi Hd Hall.
  - apply Forall2_cons_1 in Hall as [Ha Hrest].
    apply Forall2_nil_inv_l in Hrest as ->.
    destruct (currentQuestion_drop s i q [] Hi Hd) as (Hq & Hlen & _).
    assert (Hc : isCorrect q a = true) by by apply isCorrect_spec.
    destruct (handleAnswer_right js api a s q Hq Hc) as [Hp Hz].
    simpl. unfold nextQuestion. rewrite Hz. simpl. rewrite Hi.
    destruct (Z.ltb_spec (Z.of_nat i)
                (Z.of_nat (length (questions (quiz s))) - 1)); [simpl in *; lia|].
    simpl. rewrite Hz, Hp. simpl. repeat split; try done; lia.
  - apply Forall2_cons_1 in Hall as [Ha Hrest].
    destruct answers as [|a' answers];
      [by apply Forall2_nil_inv_r in Hrest|].
    destruct (currentQuestion_drop s i q (q' :: rest) Hi Hd)
      as (Hq & Hlen & Hd').
    assert (Hc : isCorrect q a = true) by by apply isCorrect_spec.
    destruct (handleAnswer_right js api a s q Hq Hc) as [Hp Hz].
    set (s2 := nextQuestion (handleAnswer js api a s).1).
    assert (Hz2 : quiz s2
      = {| isActive := isActive (quiz s); currentIndex := Z.of_nat (S i);
           score := score (quiz s) + 1; questions := questions (quiz s);
           mistakes := mistakes (quiz s) |}).
    { unfold s2, nextQuestion. rewrite Hz. simpl. rewrite Hi.
      destruct (Z.ltb_spec (Z.of_nat i)
                  (Z.of_nat (length (questions (quiz s))) - 1));
        [|simpl in *; lia].
      simpl. rewrite Hz. simpl. rewrite Hi. f_equal. lia. }
    assert (Hp2 : progress s2 = progressOnCorrect (id q) (progress s)).
    { unfold s2. by rewrite nextQuestion_progress. }
    assert (Hi2 : currentIndex (quiz s2) = Z.of_nat (S i)) by by rewrite Hz2.
    assert (Hd2 : drop (S i) (questions (quiz s2)) = q' :: rest)
      by by rewrite Hz2.
    destruct (IH q' a' answers s2 (S i) Hi2 Hd2 Hrest)
      as (Hv & Hs & Hm & Hqs & Hci & Hpr & Hmn & Hw).
    change (run cat js s (perfectEvents api (a :: a' :: answers)))
      with (run cat js s2 (perfectEvents api (a' :: answers))).
    cbv zeta in *. rewrite Hv, Hs, Hm, Hqs, Hci, Hpr, Hmn, Hw, Hz2, Hp2. simpl.
    repeat split; try done. lia.
Qed.

(** X7. A session in which every question is answered with its expected
    answer, each answer followed by [nextQuestion], ends on the review
    screen with a score equal to the number of questions, no mistake in the
    session, no change to [weakIds], and the processing flag and the hint
    cleared. *)
Theorem perfect_session (cat : Catalogs) (js : JsonHost) (api : ApiResult)
    (s : App) (l : list JapaneseChar) (answers : list string) :
  quiz s = freshQuiz l →
  l ≠ [] →
  Forall2 (λ q a, correctAnswer q = Some a) l answers →
  let s' := run cat js s (perfectEvents api answers) in
  view s' = v_review
  ∧ score (quiz s') = Z.of_nat (length l)
  ∧ mistakes (quiz s') = []
  ∧ questions (quiz s') = l
  ∧ isProcessing s' = false
  ∧ mnemonic s' = None
  ∧ weakIds (progress s') = weakIds (progress s).
Proof.
  intros Hz Hne Hall. destruct l as [|q rest]; [done|].
  destruct answers as [|a answers]; [by apply Forall2_nil_inv_r in Hall|].
  destruct (perfect_from cat js api rest q a answers s 0) as
    (Hv & Hs & Hm & Hqs & _ & Hpr & Hmn & Hw);
    [by rewrite Hz|by rewrite Hz|done|].
  intros s'. subst s'. rewrite Hv, Hs, Hm, Hqs, Hpr, Hmn, Hw, Hz. simpl.
  repeat split; try done.
Qed.

Lemma perfect_session_witness :
  let s := (startQuiz sampleCatalogs identityShuffle kanji false
              (initialApp emptyProgress)).1 in
  let s' := run sampleCatalogs sampleJson s
              (perfectEvents (ApiThrows None) ["Sun / Day"; "Moon / Month"]) in
  view s' = v_review ∧ score (quiz s') = 2 ∧ mistakes (quiz s') = [].
Proof.
  intros s s'.
  destruct (perfect_session sampleCatalogs sampleJson (ApiThrows None) s
              (KANJI_N5 sampleCatalogs) ["Sun / Day"; "Moon / Month"])
    as (Hv & Hs & Hm & _); [reflexivity|discriminate|by repeat constructor|].
  by repeat split.
Defined.

(** ** Only discovered items are asked and tracked *)

Lemma combinedDiscoveredPool_grows cat p p' :
  masteredIds p ⊆ masteredIds p' →
  combinedDiscoveredPool cat p ⊆ combinedDiscoveredPool cat p'.
Proof.
  intros Hsub c. unfold combinedDiscoveredPool. rewrite !elem_of_app.
  pose proof (getDiscoveredPool_grows p p' (HIRAGANA cat) Hsub c).
  pose proof (getDiscoveredPool_grows p p' (KATAKANA cat) Hsub c).
  pose proof (getDiscoveredPool_grows p p' (KANJI_N5 cat) Hsub c).
  pose proof (getDiscoveredPool_grows p p' (VOCABULARY_N5 cat) Hsub c).
  tauto.
Qed.

Lemma sessionSource_combined cat p type_ pool count :
  sessionSource cat p type_ = Some (pool, count) →
  pool ⊆ combinedDiscoveredPool cat p.
Proof.
  unfold sessionSource, combinedDiscoveredPool. case_decide.
  - by intros [= <- <-].
  - destruct type_; simpl; try done; intros [= <- <-] c Hc;
      rewrite !elem_of_app; tauto.
Qed.

Lemma currentQuestion_in s q :
  currentQuestion s = Some q → q ∈ questions (quiz s).
Proof.
  unfold currentQuestion. destruct (_ <? _); [done|].
  apply list_elem_of_lookup_2.
Qed.

Lemma startQuiz_questions cat rnd type_ review s q :
  q ∈ questions (quiz (startQuiz cat rnd type_ review s).1) →
  q ∈ questions (quiz s) ∨ q ∈ combinedDiscoveredPool cat (progress s).
Proof.
  unfold startQuiz.
  destruct (sessionSource cat (progress s) type_) as [[pool count]|] eqn:Hsrc;
    [|by left].
  destruct (review && _); [by left|]. simpl. intros Hq. right.
  apply questions_from_pool in Hq.
  apply (sessionSource_combined _ _ _ _ _ Hsrc).
  destruct review; [|done]. by apply list_elem_of_filter in Hq as [_ Hq].
Qed.

Lemma known_grows cat p p' x :
  masteredIds p ⊆ masteredIds p' →
  x ∈ id <$> combinedDiscoveredPool cat p →
  x ∈ id <$> combinedDiscoveredPool cat p'.
Proof.
  intros Hsub. rewrite !list_elem_of_fmap. intros (c & -> & Hc).
  exists c. split; [done|]. by apply (combinedDiscoveredPool_grows cat p p').
Qed.

Lemma DiscoveredInv_answer cat s s' :
  DiscoveredInv cat s →
  questions (quiz s') = questions (quiz s) →
  (progress s' = progress s
   ∨ ∃ q, currentQuestion s = Some q
          ∧ (progress s' = progressOnCorrect (id q) (progress s)
             ∨ progress s' = progressOnIncorrect (id q) (progress s))) →
  DiscoveredInv cat s'.
Proof.
  intros (Hqs & Hm & Hsc & Hw) Hq' Hp. unfold DiscoveredInv in *.
  rewrite Hq'. destruct Hp as [->|(q & Hq & Hp)]; [done|].
  assert (Hknown : id q ∈ id <$> combinedDiscoveredPool cat (progress s)).
  { apply list_elem_of_fmap. exists q. split; [done|].
    by apply Hqs, currentQuestion_in. }
  assert (Hsub : masteredIds (progress s) ⊆ masteredIds (progress s')).
  { destruct Hp as [-> | ->]; [|done]. intros x.
    apply progressOnCorrect_keeps. }
  assert (Hup : ∀ x, x ∈ id <$> combinedDiscoveredPool cat (progress s) →
                     x ∈ id <$> combinedDiscoveredPool cat (progress s'))
    by (intros x; by apply known_grows).
  split; [intros c Hc; by apply (combinedDiscoveredPool_grows cat _ _ Hsub),
                               Hqs|].
  destruct Hp as [Hp | Hp]; rewrite Hp in Hup |- *.
  - split.
    { intros x. rewrite progressOnCorrect_mastered.
      case_decide; [|by auto]. rewrite elem_of_app, list_elem_of_singleton.
      intros [Hx| ->]; auto. }
    split; [|by auto]. intros x. simpl. rewrite lookup_insert.
    case_decide; [subst; auto|auto].
  - split; [by auto|].
    split; intros x; simpl; rewrite lookup_insert;
      (case_decide; [subst; auto|auto]).
Qed.

Lemma DiscoveredInv_step cat js s e :
  DiscoveredInv cat s → DiscoveredInv cat (step cat js s e).
Proof.
  intros Hinv.
  destruct (keepsSession e) eqn:Hk.
  - apply (DiscoveredInv_answer cat s); [done| |apply step_progress].
    by destruct (step_score cat js s e Hk) as (_ & _ & _ & _ & ->).
  - destruct e as [rnd type_ review|api answer|answer|r| | | | |v|rendered];
      try discriminate; simpl.
    + destruct Hinv as (Hqs & Hrest). unfold DiscoveredInv.
      rewrite startQuiz_progress. split; [|done].
      intros q Hq. apply startQuiz_questions in Hq as [Hq|Hq]; auto.
    + destruct Hinv as (Hqs & Hrest). split; [|done].
      intros q Hq. inversion Hq.
Qed.

Lemma DiscoveredInv_run cat js s es :
  DiscoveredInv cat s → DiscoveredInv cat (run cat js s es).
Proof.
  intros Hinv. induction es as [|e es IH] using rev_ind; [done|].
  rewrite run_snoc. by apply DiscoveredInv_step.
Qed.

(** X8. Only discovered items are asked and tracked.  When the questions of
    the session, the mastered ids and the keys of both counters all belong to
    items of the discovered pools (as on the first render with an empty
    record), the same holds after any sequence of events; in particular the
    current question is always a discovered item. *)
Theorem only_discovered_items (cat : Catalogs) (js : JsonHost) (s : App)
    (es : list Event) :
  DiscoveredInv cat s →
  let s' := run cat js s es in
  DiscoveredInv cat s'
  ∧ ∀ q, currentQuestion s' = Some q →
         q ∈ combinedDiscoveredPool cat (progress s').
Proof.
  intros Hinv s'.
  pose proof (DiscoveredInv_run cat js s es Hinv) as Hinv'.
  split; [done|]. intros q Hq.
  destruct Hinv' as [Hqs _]. by apply Hqs, currentQuestion_in.
Qed.

Lemma DiscoveredInv_initial cat : DiscoveredInv cat (initialApp emptyProgress).
Proof.
  split; [intros q Hq; inversion Hq|].
  split; [intros x Hx; inversion Hx|].
  split; intros x [v Hv]; simpl in Hv; by rewrite lookup_empty in Hv.
Qed.

Lemma only_discovered_items_witness :
  let s' := run sampleCatalogs sampleJson (initialApp emptyProgress)
              [E_startQuiz reverseShuffle general false;
               E_handleAnswer (ApiThrows None) "School"; E_nextQuestion] in
  DiscoveredInv sampleCatalogs s'
  ∧ masteredIds (progress s') = []
  ∧ successCounts (progress s') !! "v-1" = Some 1.
Proof.
  intros s'. split; [|by split].
  apply (only_discovered_items sampleCatalogs sampleJson
           (initialApp emptyProgress)), DiscoveredInv_initial.
Defined.

(** ** Sessions without repeated questions *)

Lemma sublist_fmap_id (l1 l2 : list JapaneseChar) :
  l1 `sublist_of` l2 → (id <$> l1) `sublist_of` (id <$> l2).
Proof.
  induction 1; simpl; [constructor|by apply sublist_skip|by apply sublist_cons].
Qed.

Lemma getDiscoveredPool_sublist p catalog :
  getDiscoveredPool p catalog `sublist_of` catalog.
Proof. unfold getDiscoveredPool, slice0. apply sublist_take. Qed.

Lemma sessionSource_sublist cat p type_ pool count :
  sessionSource cat p type_ = Some (pool, count) →
  pool `sublist_of`
    (HIRAGANA cat ++ KATAKANA cat ++ KANJI_N5 cat ++ VOCABULARY_N5 cat)%list.
Proof.
  unfold sessionSource. case_decide.
  - intros [= <- <-]. unfold combinedDiscoveredPool.
    repeat apply sublist_app; apply getDiscoveredPool_sublist.
  - destruct type_; simpl; try done; intros [= <- <-].
    + apply sublist_inserts_r, getDiscoveredPool_sublist.
    + apply sublist_inserts_l, sublist_inserts_r, getDiscoveredPool_sublist.
    + do 2 apply sublist_inserts_l.
      apply sublist_inserts_r, getDiscoveredPool_sublist.
    + do 3 apply sublist_inserts_l. apply getDiscoveredPool_sublist.
Qed.

(** X9. When no id occurs twice in the four catalogs taken together, no
    session created by [startQuiz] (either mode, any target) contains two
    questions with the same id. *)
Theorem session_without_repeats (cat : Catalogs) (rnd : Shuffle)
    (type_ : CharacterType) (review : bool) (s : App) :
  NoDup (id <$> (HIRAGANA cat ++ KATAKANA cat ++ KANJI_N5 cat
                 ++ VOCABULARY_N5 cat)%list) →
  (startQuiz cat rnd type_ review s).2 = [] →
  NoDup (id <$> questions (quiz (startQuiz cat rnd type_ review s).1)).
Proof.
  intros Hnd. unfold startQuiz.
  destruct (sessionSource cat (progress s) type_) as [[pool count]|] eqn:Hsrc;
    [|discriminate].
  destruct (review && _); [discriminate|]. simpl. intros _.
  set (cand := if review then weakFilter (progress s) pool else pool).
  assert (Hcand : cand `sublist_of` pool).
  { unfold cand. destruct review; [apply sublist_filter|done]. }
  unfold slice0. rewrite fmap_take.
  eapply sublist_NoDup; [|apply sublist_take].
  rewrite (permute_perm rnd cand).
  eapply sublist_NoDup; [exact Hnd|]. apply sublist_fmap_id.
  etrans; [exact Hcand|]. by eapply sessionSource_sublist.
Qed.

Lemma session_without_repeats_witness :
  NoDup (id <$> questions
           (quiz (startQuiz sampleCatalogs reverseShuffle general false
                    masteredApp).1)).
Proof.
  apply session_without_repeats; [|reflexivity].
  apply (bool_decide_unpack _). vm_compute. exact I.
Defined.

(** ** Review after a mistake *)

(** X10. After an incorrect answer to a discovered question, a review session
    over the general target can always be started: the review pool holds
    that question, the session is created without the no-mistakes alert, and
    when the review pool has at most 20 items the question is in it. *)
Theorem review_after_mistake (cat : Catalogs) (js : JsonHost)
    (api : ApiResult) (rnd : Shuffle) (answer : string) (s : App)
    (q : JapaneseChar) :
  DiscoveredInv cat s →
  ProgressInv (progress s) →
  currentQuestion s = Some q →
  isCorrect q answer = false →
  let s1 := (handleAnswer js api answer s).1 in
  let candidates :=
    weakFilter (progress s1) (combinedDiscoveredPool cat (progress s1)) in
  let r := startQuiz cat rnd general true s1 in
  q ∈ candidates
  ∧ r.2 = []
  ∧ view r.1 = v_quiz
  ∧ questions (quiz r.1) = take 20 (permute rnd candidates)
  ∧ questions (quiz r.1) ≠ []
  ∧ ((length candidates ≤ 20)%nat → q ∈ questions (quiz r.1)).
Proof.
  intros Hdisc [Hw _] Hq Hc s1 candidates r.
  destruct (handleAnswer_wrong js api answer s q Hq Hc) as [Hp _].
  fold s1 in Hp.
  assert (Hin : q ∈ candidates).
  { unfold candidates, weakFilter. apply list_elem_of_filter. rewrite Hp. split.
    - rewrite progressOnIncorrect_weak. simpl.
      pose proof (default_nonneg _ (id q) Hw).
      rewrite bool_decide_eq_false_2; [done|lia].
    - destruct Hdisc as [Hqs _]. by apply Hqs, currentQuestion_in. }
  assert (Hr : r = (setMnemonic None
                      (setView v_quiz
                         (setActiveType general
                            (setQuiz (λ _, freshQuiz
                               (slice0 20 (permute rnd candidates))) s1))),
                    [])).
  { subst r. unfold startQuiz, sessionSource. simpl. fold candidates.
    rewrite bool_decide_eq_false_2; [done|].
    intros Hlen. apply nil_length_inv in Hlen. rewrite Hlen in Hin.
    inversion Hin. }
  rewrite Hr. do 4 (split; [done|]).
  assert (Hperm : q ∈ permute rnd candidates) by by rewrite permute_perm.
  split.
  - change (slice0 20 (permute rnd candidates) ≠ []).
    intros Hnil. apply (f_equal length) in Hnil.
    rewrite session_length in Hnil.
    destruct candidates; [inversion Hin|simpl in Hnil; lia].
  - change (length candidates ≤ 20 →
            q ∈ slice0 20 (permute rnd candidates))%nat.
    intros Hlen. unfold slice0. rewrite take_ge; [done|].
    by rewrite (permute_perm rnd candidates).
Qed.

Lemma review_after_mistake_witness :
  let r := startQuiz sampleCatalogs reverseShuffle general true weakApp in
  r.2 = [] ∧ sampleQuestion ∈ questions (quiz r.1).
Proof.
  intros r.
  assert (Hdisc : DiscoveredInv sampleCatalogs sampleApp).
  { apply (DiscoveredInv_run sampleCatalogs sampleJson
             (initialApp emptyProgress)
             [E_startQuiz identityShuffle hiragana false]),
      DiscoveredInv_initial. }
  destruct (review_after_mistake sampleCatalogs sampleJson (ApiThrows None)
              reverseShuffle "ka" sampleApp sampleQuestion Hdisc
              ProgressInv_empty eq_refl eq_refl)
    as (_ & Hok & _ & _ & _ & Hin).
  split; [exact Hok|]. apply Hin. vm_compute. lia.
Defined.

(** ** The processing flag as a gate on answers *)

Lemma handleAnswer_begin_processing answer s :
  isProcessing (handleAnswer_begin answer s).1.1 = true.
Proof.
  unfold handleAnswer_begin.
  change (currentQuestion (setIsProcessing true s)) with (currentQuestion s).
  destruct (currentQuestion s) as [q|]; [|done].
  by destruct (isCorrect q answer).
Qed.

Lemma handleSelect_processing js api option_ selected s :
  isProcessing s = true →
  handleSelect js api option_ selected s = (selected, s, []).
Proof. intros H. unfold handleSelect. by rewrite H. Qed.

(** X11. Once [handleAnswer] has started, the card ignores every further
    selection until the flag is cleared: after the part of [handleAnswer]
    before its [await], and after a whole correct answer, [handleSelect]
    changes neither the state nor the selection and calls nothing, so an
    answer cannot be counted twice by clicking again. *)
Theorem select_ignored_while_processing (js : JsonHost) (api api' : ApiResult)
    (answer option_ : string) (selected : option string) (s : App) :
  let s1 := (handleAnswer_begin answer s).1.1 in
  let s2 := (handleAnswer js api' answer s).1 in
  isProcessing s1 = true
  ∧ handleSelect js api option_ selected s1 = (selected, s1, [])
  ∧ (∀ q, currentQuestion s = Some q → isCorrect q answer = true →
          isProcessing s2 = true
          ∧ handleSelect js api option_ selected s2 = (selected, s2, [])
          ∧ score (quiz (handleSelect js api option_ selected s2).1.2)
            = score (quiz s) + 1).
Proof.
  intros s1 s2.
  pose proof (handleAnswer_begin_processing answer s) as H1. fold s1 in H1.
  split; [done|]. split; [by apply handleSelect_processing|].
  intros q Hq Hc.
  assert (H2 : isProcessing s2 = true).
  { subst s2. unfold handleAnswer, handleAnswer_begin.
    change (currentQuestion (setIsProcessing true s)) with (currentQuestion s).
    by rewrite Hq, Hc. }
  split; [done|]. rewrite (handleSelect_processing _ _ _ _ _ H2).
  split; [done|]. simpl. subst s2.
  by destruct (handleAnswer_right js api' answer s q Hq Hc) as [_ ->].
Qed.

Lemma select_ignored_while_processing_witness :
  let s2 := (handleAnswer sampleJson (ApiThrows None) "a" sampleApp).1 in
  handleSelect sampleJson (ApiThrows None) "a" None s2 = (None, s2, [])
  ∧ score (quiz s2) = 1.
Proof.
  intros s2.
  destruct (select_ignored_while_processing sampleJson (ApiThrows None)
              (ApiThrows None) "a" "a" None sampleApp) as (_ & _ & H).
  destruct (H sampleQuestion eq_refl eq_refl) as (_ & Hsel & _).
  split; [exact Hsel|reflexivity].
Defined.

Lemma userStep_stuck cat js s e :
  isProcessing s = true → mnemonic s = None →
  let s' := userStep cat js s e in
  isProcessing s' = true ∧ mnemonic s' = None ∧ progress s' = progress s.
Proof.
  intros Hp Hm. destruct e as [api option_| |rnd type_| |v|]; simpl.
  - destruct (quizCardShown s); [|done].
    by rewrite (handleSelect_processing _ _ _ _ _ Hp).
  - unfold nextButtonShown. rewrite Hm.
    rewrite (bool_decide_eq_false_2 (is_Some None)) by (by intros [? ?]).
    by rewrite andb_false_r.
  - unfold startQuiz.
    destruct (sessionSource cat (progress s) type_) as [[pool count]|];
      by simpl.
  - done.
  - done.
  - done.
Qed.

(** X12. A state with the processing flag set and no hint shown is a dead
    end for the user: whatever is clicked afterwards (options, Next Question,
    starting a session, going home, changing the view, closing the error),
    the flag stays set, no hint appears, the Next Question button is not
    rendered, and the progress record never changes again. *)
Theorem processing_without_hint_is_stuck (cat : Catalogs) (js : JsonHost)
    (s : App) (es : list UserEvent) :
  isProcessing s = true →
  mnemonic s = None →
  let s' := userRun cat js s es in
  isProcessing s' = true
  ∧ mnemonic s' = None
  ∧ nextButtonShown s' = false
  ∧ progress s' = progress s
  ∧ ∀ api option_ selected,
      handleSelect js api option_ selected s' = (selected, s', []).
Proof.
  intros Hp Hm s'.
  assert (H : isProcessing s' = true ∧ mnemonic s' = None
              ∧ progress s' = progress s).
  { subst s'. induction es as [|e es IH] using rev_ind; [done|].
    unfold userRun in *. rewrite foldl_app. simpl.
    destruct IH as (IHp & IHm & IHpr).
    destruct (userStep_stuck cat js _ e IHp IHm) as (? & ? & Hpr).
    by rewrite Hpr. }
  destruct H as (Hp' & Hm' & Hpr).
  split; [done|]. split; [done|]. split.
  { unfold nextButtonShown. rewrite Hm'.
    rewrite (bool_decide_eq_false_2 (is_Some None)) by (by intros [? ?]).
    apply andb_false_r. }
  split; [done|]. intros api option_ selected.
  by apply handleSelect_processing.
Qed.

Lemma processing_without_hint_is_stuck_witness :
  let s := userRun sampleCatalogs tipJson sampleApp quitWithHintShown in
  let s' := userRun sampleCatalogs tipJson s
              [U_select (ApiThrows None) "a"; U_nextQuestion;
               U_resetToHome; U_startQuiz reverseShuffle katakana;
               U_select (ApiThrows None) "a"] in
  quizCardShown s = true
  ∧ isProcessing s' = true
  ∧ successCounts (progress s') !! "h-a" = Some 0.
Proof.
  intros s s'. split; [reflexivity|].
  destruct (processing_without_hint_is_stuck sampleCatalogs tipJson s
              [U_select (ApiThrows None) "a"; U_nextQuestion;
               U_resetToHome; U_startQuiz reverseShuffle katakana;
               U_select (ApiThrows None) "a"] eq_refl eq_refl)
    as (Hp & _ & _ & Hpr & _).
  split; [exact Hp|]. fold s' in Hpr. rewrite Hpr. reflexivity.
Defined.

Lemma startQuiz_flags cat rnd type_ s :
  type_ ≠ grammar →
  let s' := (startQuiz cat rnd type_ false s).1 in
  isProcessing s' = isProcessing s ∧ mnemonic s' = None ∧ view s' = v_quiz.
Proof.
  intros Hty. unfold startQuiz, sessionSource.
  case_decide; [done|]. by destruct type_.
Qed.

(** X13. What the user can do after an incorrect answer given in the quiz
    view with no hint on screen.  If the hint arrives it is shown, the
    options stay blocked and Next Question is offered; Next Question clears
    both, but leaving the quiz and starting a session instead keeps the flag
    set with no hint on screen.  If no hint arrives (the service returned
    null for any reason) the options are enabled again on the same question
    and Next Question is not offered: the session goes on only through
    another answer to that question. *)
Theorem after_incorrect_answer (cat : Catalogs) (js : JsonHost)
    (api : ApiResult) (answer : string) (s : App) (q : JapaneseChar)
    (rnd : Shuffle) (type_ : CharacterType) :
  view s = v_quiz →
  currentQuestion s = Some q →
  isProcessing s = false →
  mnemonic s = None →
  isCorrect q answer = false →
  type_ ≠ grammar →
  let s1 := userStep cat js s (U_select api answer) in
  currentQuestion s1 = Some q
  ∧ view s1 = v_quiz
  ∧ (∀ tip, getMnemonic_try js api = Normal (Some tip) →
       mnemonic s1 = Some tip
       ∧ isProcessing s1 = true
       ∧ nextButtonShown s1 = true
       ∧ isProcessing (userStep cat js s1 U_nextQuestion) = false
       ∧ mnemonic (userStep cat js s1 U_nextQuestion) = None
       ∧ isProcessing (userRun cat js s1 [U_resetToHome; U_startQuiz rnd type_])
         = true
       ∧ mnemonic (userRun cat js s1 [U_resetToHome; U_startQuiz rnd type_])
         = None)
  ∧ ((∀ tip, getMnemonic_try js api ≠ Normal (Some tip)) →
       mnemonic s1 = None
       ∧ isProcessing s1 = false
       ∧ nextButtonShown s1 = false
       ∧ userStep cat js s1 U_nextQuestion = s1
       ∧ ∀ api' answer',
           userStep cat js s1 (U_select api' answer')
           = (handleAnswer js api' answer' s1).1).
Proof.
  intros Hv Hq Hp Hm Hc Hty s1.
  assert (Hshown : quizCardShown s = true).
  { unfold quizCardShown. rewrite Hv, Hq.
    rewrite bool_decide_eq_true_2 by done.
    by rewrite bool_decide_eq_true_2 by by eexists. }
  assert (Hs1 : s1 = (handleAnswer js api answer s).1).
  { subst s1. simpl. rewrite Hshown. unfold handleSelect. rewrite Hp.
    by destruct (handleAnswer js api answer s). }
  assert (Hq1 : currentQuestion s1 = Some q)
    by by rewrite Hs1, handleAnswer_currentQuestion.
  assert (Hform : s1 = afterHint (getMnemonicForChar js api q).1
                         (recordMistake q (setIsProcessing true s))).
  { rewrite Hs1. unfold handleAnswer, handleAnswer_begin.
    change (currentQuestion (setIsProcessing true s)) with (currentQuestion s).
    rewrite Hq, Hc. by destruct (getMnemonicForChar js api q). }
  assert (Hv1 : view s1 = v_quiz).
  { rewrite Hform. unfold getMnemonicForChar.
    destruct (getMnemonic_try js api) as [[tip|]|m]; simpl; done. }
  assert (Hshown1 : quizCardShown s1 = true).
  { unfold quizCardShown. rewrite Hv1, Hq1.
    rewrite bool_decide_eq_true_2 by done.
    by rewrite bool_decide_eq_true_2 by by eexists. }
  split; [done|]. split; [done|]. split.
  - intros tip Htip.
    assert (Hm1 : mnemonic s1 = Some tip).
    { rewrite Hform. unfold getMnemonicForChar. by rewrite Htip. }
    assert (Hp1 : isProcessing s1 = true).
    { rewrite Hform. unfold getMnemonicForChar. by rewrite Htip. }
    assert (Hnext : nextButtonShown s1 = true).
    { unfold nextButtonShown. rewrite Hshown1, Hm1.
      by rewrite bool_decide_eq_true_2 by by eexists. }
    split; [done|]. split; [done|]. split; [done|].
    simpl. rewrite Hnext.
    split; [unfold nextQuestion; by destruct (_ <? _)|].
    split; [unfold nextQuestion; by destruct (_ <? _)|].
    destruct (startQuiz_flags cat rnd type_ (resetToHome s1) Hty)
      as (Hfp & Hfm & _).
    rewrite Hfp, Hfm. by split.
  - intros Hnone.
    assert (Hm1 : mnemonic s1 = None ∧ isProcessing s1 = false).
    { rewrite Hform. unfold getMnemonicForChar.
      destruct (getMnemonic_try js api) as [[tip|]|m] eqn:Htry; simpl.
      - by destruct (Hnone tip).
      - done.
      - done. }
    destruct Hm1 as [Hm1 Hp1].
    assert (Hnext : nextButtonShown s1 = false).
    { unfold nextButtonShown. rewrite Hm1.
      rewrite (bool_decide_eq_false_2 (is_Some None)) by (by intros [? ?]).
      apply andb_false_r. }
    split; [done|]. split; [done|]. split; [done|].
    split; [simpl; by rewrite Hnext|].
    intros api' answer'. simpl. rewrite Hshown1. unfold handleSelect.
    rewrite Hp1. by destruct (handleAnswer js api' answer' s1).
Qed.

Lemma after_incorrect_answer_witness :
  let s1 := userStep sampleCatalogs tipJson sampleApp
              (U_select (ApiResponse (Some "{}")) "ka") in
  let s1' := userStep sampleCatalogs sampleJson sampleApp
               (U_select (ApiResponse (Some "{}")) "ka") in
  mnemonic s1 = Some sampleTip
  ∧ nextButtonShown s1 = true
  ∧ nextButtonShown s1' = false
  ∧ isProcessing s1' = false.
Proof.
  intros s1 s1'.
  destruct (after_incorrect_answer sampleCatalogs tipJson
              (ApiResponse (Some "{}")) "ka" sampleApp sampleQuestion
              identityShuffle hiragana eq_refl eq_refl eq_refl eq_refl eq_refl)
    as (_ & _ & Htip & _); [discriminate|].
  destruct (after_incorrect_answer sampleCatalogs sampleJson
              (ApiResponse (Some "{}")) "ka" sampleApp sampleQuestion
              identityShuffle hiragana eq_refl eq_refl eq_refl eq_refl eq_refl)
    as (_ & _ & _ & Hnone); [discriminate|].
  destruct (Htip sampleTip eq_refl) as (Hm & _ & Hn & _).
  destruct Hnone as (_ & Hp & Hn' & _); [intros tip; discriminate|].
  by repeat split.
Defined.

(** ** The unlock notification *)

Lemma unlockVisit_Some cat p b key pool :
  unlockedSets cat p key = Some pool →
  let c := bool_decide (countOf (prevDiscoveredCounts b) key < length pool)%nat in
  unlockVisit cat p b key
  = {| unlockNotification := if c then last pool else unlockNotification b;
       prevDiscoveredCounts :=
         setCount (prevDiscoveredCounts b) key (length pool);
       clearTimers := (clearTimers b ++ if c then [5000] else [])%list |}.
Proof.
  intros Hkey c. unfold unlockVisit. rewrite Hkey. fold c.
  destruct c; cbn [unlockNotification prevDiscoveredCounts clearTimers];
    by rewrite ?app_nil_r.
Qed.

Lemma unlockEffect_home cat s b :
  view s = v_home →
  let p := progress s in
  let prev := prevDiscoveredCounts b in
  let l1 := getDiscoveredPool p (HIRAGANA cat) in
  let l2 := getDiscoveredPool p (KATAKANA cat) in
  let l3 := getDiscoveredPool p (KANJI_N5 cat) in
  let l4 := getDiscoveredPool p (VOCABULARY_N5 cat) in
  let c1 := bool_decide (n_hiragana prev < length l1)%nat in
  let c2 := bool_decide (n_katakana prev < length l2)%nat in
  let c3 := bool_decide (n_kanji prev < length l3)%nat in
  let c4 := bool_decide (n_vocabulary prev < length l4)%nat in
  unlockEffect cat s b
  = {| unlockNotification :=
         if c4 then last l4 else if c3 then last l3
         else if c2 then last l2 else if c1 then last l1
         else unlockNotification b;
       prevDiscoveredCounts :=
         {| n_hiragana := length l1; n_katakana := length l2;
            n_kanji := length l3; n_vocabulary := length l4 |};
       clearTimers :=
         (clearTimers b ++ (if c1 then [5000] else [])
          ++ (if c2 then [5000] else []) ++ (if c3 then [5000] else [])
          ++ (if c4 then [5000] else []))%list |}.
Proof.
  intros Hv p prev l1 l2 l3 l4 c1 c2 c3 c4.
  unfold unlockEffect. rewrite bool_decide_eq_false_2 by (by intros []).
  unfold unlockCategories. cbn [foldl]. fold p.
  rewrite (unlockVisit_Some cat p b hiragana l1 eq_refl).
  rewrite (unlockVisit_Some cat p _ katakana l2 eq_refl).
  rewrite (unlockVisit_Some cat p _ kanji l3 eq_refl).
  rewrite (unlockVisit_Some cat p _ vocabulary l4 eq_refl).
  subst c1 c2 c3 c4 prev. clearbody l1 l2 l3 l4.
  destruct b as [note [n1 n2 n3 n4] timers].
  cbn [unlockNotification prevDiscoveredCounts clearTimers countOf setCount
       n_hiragana n_katakana n_kanji n_vocabulary].
  rewrite <- !app_assoc.
  by destruct (bool_decide (n1 < _)%nat), (bool_decide (n2 < _)%nat),
    (bool_decide (n3 < _)%nat), (bool_decide (n4 < _)%nat).
Qed.



(** X15. What the unlock effect announces on the home view: nothing new when
    no discovered pool is longer than its recorded count; otherwise the last
    item of the pool of the last script (in the order hiragana, katakana,
    kanji, vocabulary) whose pool grew, an item that exists; and it starts
    one 5-second timer per script that grew. *)
Theorem unlockEffect_announces (cat : Catalogs) (s : App) (b : Banner) :
  view s = v_home →
  let grown := grownCategories cat (progress s) (prevDiscoveredCounts b) in
  let b' := unlockEffect cat s b in
  clearTimers b' = (clearTimers b ++ replicate (length grown) 5000)%list
  ∧ match last grown with
    | None => unlockNotification b' = unlockNotification b
    | Some key =>
        ∃ pool c, unlockedSets cat (progress s) key = Some pool
                  ∧ last pool = Some c
                  ∧ unlockNotification b' = Some c
    end.
Proof.
  intros Hv grown b'. subst grown b'.
  rewrite (unlockEffect_home cat s b Hv).
  assert (Hlast : ∀ (l : list JapaneseChar) n,
            bool_decide (n < length l)%nat = true → ∃ c, last l = Some c).
  { intros l n Hn. apply bool_decide_eq_true in Hn.
    destruct (last l) as [c|] eqn:Hl; [by eexists|].
    apply last_None in Hl. subst. simpl in Hn. lia. }
  unfold grownCategories, hasGrown, unlockCategories. simpl.
  rewrite !filter_cons, filter_nil. simpl.
  pose proof (Hlast (getDiscoveredPool (progress s) (HIRAGANA cat))
                (n_hiragana (prevDiscoveredCounts b))) as H1.
  pose proof (Hlast (getDiscoveredPool (progress s) (KATAKANA cat))
                (n_katakana (prevDiscoveredCounts b))) as H2.
  pose proof (Hlast (getDiscoveredPool (progress s) (KANJI_N5 cat))
                (n_kanji (prevDiscoveredCounts b))) as H3.
  pose proof (Hlast (getDiscoveredPool (progress s) (VOCABULARY_N5 cat))
                (n_vocabulary (prevDiscoveredCounts b))) as H4.
  destruct (bool_decide (n_hiragana _ < _)%nat);
    destruct (bool_decide (n_katakana _ < _)%nat);
    destruct (bool_decide (n_kanji _ < _)%nat);
    destruct (bool_decide (n_vocabulary _ < _)%nat); simpl;
    (split; [done|]); try done;
    first [ destruct (H4 eq_refl) as [c Hc]
          | destruct (H3 eq_refl) as [c Hc]
          | destruct (H2 eq_refl) as [c Hc]
          | destruct (H1 eq_refl) as [c Hc] ];
    eexists _, c; by rewrite Hc.
Qed.

Lemma unlockEffect_announces_witness :
  let b := {| unlockNotification := None;
              prevDiscoveredCounts := initialCounts; clearTimers := [] |} in
  let b' := unlockEffect sampleCatalogs (resetToHome masteredApp) b in
  id <$> unlockNotification b' = Some "h-sa" ∧ clearTimers b' = [5000].
Proof.
  intros b b'.
  destruct (unlockEffect_announces sampleCatalogs (resetToHome masteredApp) b
              eq_refl) as [Ht Hn].
  split; [reflexivity|exact Ht].
Defined.

(** ** Counts shown on the dashboard and the home cards *)

Lemma getStatus_completed p x :
  getStatus p x = Completed ↔ x ∈ masteredIds p.
Proof.
  unfold getStatus, includes. case_bool_decide; [done|].
  split; [|done]. by destruct (0 <? _).
Qed.

Lemma length_filter_impl {A} (P Q : A → Prop) `{∀ x, Decision (P x)}
    `{∀ x, Decision (Q x)} (l : list A) :
  (∀ x, x ∈ l → P x → Q x) →
  (length (filter P l) ≤ length (filter Q l))%nat.
Proof.
  induction l as [|x l IH]; [done|]. intros Himpl.
  rewrite !filter_cons.
  assert (IH' : (length (filter P l) ≤ length (filter Q l))%nat).
  { apply IH. intros y Hy. apply Himpl. by apply list_elem_of_further. }
  pose proof (Himpl x (list_elem_of_here _ _)).
  destruct (decide (P x)), (decide (Q x)); simpl; try lia. tauto.
Qed.

Lemma length_filter_disjoint {A} (P Q : A → Prop) `{∀ x, Decision (P x)}
    `{∀ x, Decision (Q x)} (l : list A) :
  (∀ x, P x → Q x → False) →
  (length (filter P l) + length (filter Q l) ≤ length l)%nat.
Proof.
  intros Hdis. induction l as [|x l IH]; [done|].
  rewrite !filter_cons. pose proof (Hdis x).
  destruct (decide (P x)), (decide (Q x)); simpl; try lia. tauto.
Qed.

Lemma proficient_in_mastered p x :
  MasteredInv p →
  getProficiency p x = Intermediate ∨ getProficiency p x = Advanced →
  x ∈ masteredIds p.
Proof.
  intros [_ Hinv] Hprof.
  unfold getProficiency, PROFICIENCY_ADVANCED, PROFICIENCY_INTERMEDIATE in Hprof.
  rewrite orZero_default in Hprof.
  destruct (successCounts p !! x) as [v|] eqn:Hv; simpl in Hprof.
  - apply (Hinv x v Hv). unfold MASTERY_THRESHOLD.
    destruct (Z.leb_spec 8 v); [lia|].
    destruct (Z.leb_spec 5 v); [lia|].
    destruct (0 <? v); destruct Hprof; discriminate.
  - destruct Hprof; discriminate.
Qed.

(** X16. The Completed count of the dashboard, the mastered count of the home
    cards and the count that sizes the discovered pool are the same number;
    Completed plus In progress never exceeds the size of the pool, so the
    two-part progress bar never overflows; and when every counter of 3 or
    more belongs to a mastered id, the Highly Proficient count is at most the
    Completed count. *)
Theorem dashboard_counts (p : UserProgress) (pool : list JapaneseChar) :
  masteredCount p pool = homeMasteredCount p pool
  ∧ masteredCount p pool = masteredCountWithinCategory p pool
  ∧ length (getDiscoveredPool p pool)
    = ((INITIAL_INTRO_COUNT + masteredCount p pool) `min` length pool)%nat
  ∧ (masteredCount p pool + inProgressCount p pool ≤ length pool)%nat
  ∧ (MasteredInv p → (advancedCount p pool ≤ masteredCount p pool)%nat).
Proof.
  assert (H1 : masteredCount p pool = masteredCountWithinCategory p pool).
  { unfold masteredCount, masteredCountWithinCategory. f_equal.
    apply list_filter_iff. intros c. apply getStatus_completed. }
  split.
  { rewrite H1. unfold homeMasteredCount.
    by rewrite categoryMasteredCount_spec. }
  split; [done|]. split; [rewrite H1; apply getDiscoveredPool_length|].
  split.
  - unfold masteredCount, inProgressCount.
    apply length_filter_disjoint. intros c Hc Hi. congruence.
  - intros Hinv. unfold advancedCount, masteredCount.
    apply length_filter_impl. intros c _ Hadv.
    apply getStatus_completed, (proficient_in_mastered p); auto.
Qed.

Lemma dashboard_counts_witness :
  let p := progress (run sampleCatalogs sampleJson sampleApp
                       (replicate 8 (E_handleAnswer (ApiThrows None) "a"))) in
  advancedCount p (HIRAGANA sampleCatalogs) = 1%nat
  ∧ (advancedCount p (HIRAGANA sampleCatalogs)
     ≤ masteredCount p (HIRAGANA sampleCatalogs))%nat.
Proof.
  intros p. split; [reflexivity|].
  apply (dashboard_counts p (HIRAGANA sampleCatalogs)).
  apply (MasteredInv_run sampleCatalogs sampleJson sampleApp);
    [apply ProgressInv_empty|apply MasteredInv_empty].
Defined.

(** ** The review pool in reachable states *)

Lemma WeakInv_step cat js s e :
  WeakInv (progress s) → WeakInv (progress (step cat js s e)).
Proof.
  intros Hinv.
  destruct (step_progress cat js s e) as [->|(q & _ & [-> | ->])];
    [done|done|].
  intros k v. simpl. rewrite lookup_insert. case_decide; [|apply Hinv].
  intros [= <-]. rewrite orZero_default.
  destruct (weakIds (progress s) !! id q) as [w|] eqn:Hw; simpl; [|lia].
  apply Hinv in Hw. lia.
Qed.

(** X17. Every mistake counter that exists is at least 1, in every state
    reached from a record where that holds (the empty record is one); there
    the review filter of [startQuiz] keeps exactly the items whose id is a
    key of [weakIds]. *)
Theorem review_pool_is_weak_keys (cat : Catalogs) (js : JsonHost) (s : App)
    (es : list Event) (pool : list JapaneseChar) :
  WeakInv (progress s) →
  let p := progress (run cat js s es) in
  WeakInv p
  ∧ weakFilter p pool = filter (λ c, is_Some (weakIds p !! id c)) pool.
Proof.
  intros Hinv p.
  assert (Hinv' : WeakInv p).
  { subst p. induction es as [|e es IH] using rev_ind; [done|].
    rewrite run_snoc. by apply WeakInv_step. }
  split; [done|]. unfold weakFilter. apply list_filter_iff. intros c.
  rewrite truthy_Some. split.
  - intros (n & Hn & _). by eexists.
  - intros [n Hn]. exists n. split; [done|]. apply Hinv' in Hn. lia.
Qed.

Lemma review_pool_is_weak_keys_witness :
  weakFilter (progress weakApp) (HIRAGANA sampleCatalogs)
  = filter (λ c, is_Some (weakIds (progress weakApp) !! id c))
      (HIRAGANA sampleCatalogs).
Proof.
  apply (review_pool_is_weak_keys sampleCatalogs sampleJson sampleApp
           [E_handleAnswer (ApiThrows None) "ka"] (HIRAGANA sampleCatalogs)).
  intros k v. simpl. by rewrite lookup_empty.
Defined.

(** ** Search in the vocabulary and grammar lists *)

Lemma str_includes_empty hay : str_includes hay EmptyString = true.
Proof. by destruct hay. Qed.

Lemma filter_all {A} (P : A → Prop) `{∀ x, Decision (P x)} (l : list A) :
  (∀ x, x ∈ l → P x) → filter P l = l.
Proof.
  induction l as [|x l IH]; [done|]. intros Hall.
  rewrite filter_cons, decide_True by apply Hall, list_elem_of_here.
  f_equal. apply IH. intros y Hy. by apply Hall, list_elem_of_further.
Qed.

(** X18. With an empty search text the vocabulary list is shown whole, and so
    is the grammar list when lower-casing the empty text gives the empty
    text; for every search text the result keeps catalog order (it is a
    sublist), and a vocabulary entry whose Japanese form contains the text
    as typed is always in the result. *)
Theorem search_results (lower : string → string) (cat : Catalogs)
    (GRAMMAR_N5 : list GrammarPoint) (search : string) :
  lower EmptyString = EmptyString →
  filteredVocab lower cat EmptyString = VOCABULARY_N5 cat
  ∧ filteredGrammar lower GRAMMAR_N5 EmptyString = GRAMMAR_N5
  ∧ filteredVocab lower cat search `sublist_of` VOCABULARY_N5 cat
  ∧ filteredGrammar lower GRAMMAR_N5 search `sublist_of` GRAMMAR_N5
  ∧ ∀ v, v ∈ VOCABULARY_N5 cat → str_includes (char v) search = true →
         v ∈ filteredVocab lower cat search.
Proof.
  intros Hlower. split.
  { apply filter_all. intros v _. by rewrite str_includes_empty. }
  split.
  { apply filter_all. intros g _.
    by rewrite Hlower, str_includes_empty. }
  split; [apply sublist_filter|]. split; [apply sublist_filter|].
  intros v Hv Hchar. apply list_elem_of_filter. split; [|done].
  by rewrite Hchar.
Qed.

Lemma search_results_witness :
  filteredVocab (λ t, t) sampleCatalogs EmptyString
  = VOCABULARY_N5 sampleCatalogs
  ∧ id <$> filteredVocab (λ t, t) sampleCatalogs "Sch" = ["v-1"]
  ∧ filteredVocab (λ t, t) sampleCatalogs "sch" = [].
Proof.
  split; [|by split].
  apply (search_results (λ t, t) sampleCatalogs [] "Sch" eq_refl).
Defined.

(** ** Answer options *)

Section distinct_values.
Context {A : Type} `{EqDecision A}.

Lemma indexOf_lookup (a : list A) v i :
  indexOf a v = Some i → a !! i = Some v.
Proof.
  revert i. induction a as [|x a IH]; intros i; simpl; [done|].
  case_decide as Hx; [by intros [= <-]; subst|].
  destruct (indexOf a v) as [j|]; simpl; [|done].
  intros [= <-]. by apply IH.
Qed.

Lemma indexOf_elem (a : list A) v : v ∈ a → is_Some (indexOf a v).
Proof.
  induction a as [|x a IH]; [by intros H; inversion H|].
  intros Hv. simpl. case_decide as Hx; [by eexists|].
  apply elem_of_cons in Hv as [->|Hv]; [done|].
  destruct (IH Hv) as [j ->]. by eexists.
Qed.

Lemma filterFrom_elem (p : A → nat → bool) i (l : list A) x :
  x ∈ filterFrom p i l ↔ ∃ k, l !! k = Some x ∧ p x (i + k)%nat = true.
Proof.
  revert i. induction l as [|y l IH]; intros i; simpl.
  { split; [by intros H; inversion H|by intros (k & Hk & _)]. }
  assert (Hrest : x ∈ filterFrom p (S i) l
                  ↔ ∃ k, (y :: l) !! S k = Some x
                         ∧ p x (i + S k)%nat = true).
  { rewrite IH. by setoid_rewrite Nat.add_succ_r. }
  destruct (p y i) eqn:Hp.
  - rewrite elem_of_cons, Hrest. split.
    + intros [->|(k & Hk & Hpk)]; [|by exists (S k)].
      exists 0%nat. by rewrite Nat.add_0_r.
    + intros ([|k] & Hk & Hpk); [left; by injection Hk|right; by exists k].
  - rewrite Hrest. split.
    + intros (k & Hk & Hpk). by exists (S k).
    + intros ([|k] & Hk & Hpk); [|by exists k].
      injection Hk as ->. rewrite Nat.add_0_r in Hpk. congruence.
Qed.

Lemma filterFrom_NoDup (p : A → nat → bool) i (l : list A) :
  (∀ x j j', p x j = true → p x j' = true → j = j') →
  NoDup (filterFrom p i l).
Proof.
  intros Huniq. revert i. induction l as [|y l IH]; intros i; simpl.
  { constructor. }
  destruct (p y i) eqn:Hp; [|apply IH].
  constructor; [|apply IH].
  rewrite filterFrom_elem. intros (k & _ & Hpk).
  pose proof (Huniq y _ _ Hp Hpk). lia.
Qed.

(** The filter of [options] keeps each value once, at its first index, and
    drops the values equal to [correct]. *)
Lemma firstOccurrences (a : list A) (correct : A) :
  let distinct :=
    filterFrom (λ v i, bool_decide (indexOf a v = Some i)
                       && negb (bool_decide (v = correct))) 0 a in
  NoDup distinct ∧ ∀ v, v ∈ distinct ↔ v ∈ a ∧ v ≠ correct.
Proof.
  intros distinct. split.
  - apply filterFrom_NoDup. intros x j j' Hj Hj'.
    apply andb_true_iff in Hj as [Hj _], Hj' as [Hj' _].
    apply bool_decide_eq_true in Hj, Hj'. congruence.
  - intros v. unfold distinct. rewrite filterFrom_elem. split.
    + intros (k & Hk & Hp). apply andb_true_iff in Hp as [_ Hne].
      apply negb_true_iff, bool_decide_eq_false in Hne.
      split; [by eapply list_elem_of_lookup_2|done].
    + intros [Hv Hne]. destruct (indexOf_elem a v Hv) as [j Hj].
      exists j. split; [by apply indexOf_lookup|]. simpl.
      rewrite Hj, bool_decide_eq_true_2 by done.
      by rewrite bool_decide_eq_false_2.
Qed.
End distinct_values.

Lemma wrongOptions_spec cat rnd q :
  NoDup (wrongOptions cat rnd q)
  ∧ (∀ v, v ∈ wrongOptions cat rnd q →
          v ≠ correctAnswer q
          ∧ ∃ c, c ∈ optionPool cat q ∧ id c ≠ id q ∧ v = correctAnswer c)
  ∧ length (wrongOptions cat rnd q)
    = (3 `min` length (remove_dups
                         (filter (λ v, v ≠ correctAnswer q)
                            (optionValues cat q))))%nat.
Proof.
  unfold wrongOptions, slice0.
  destruct (firstOccurrences (optionValues cat q) (correctAnswer q))
    as [Hnd Hel].
  set (distinct := filterFrom _ 0%nat (optionValues cat q)) in *.
  split; [|split].
  - eapply sublist_NoDup; [|apply sublist_take].
    by rewrite (arrange_perm rnd distinct).
  - intros v Hv. apply subseteq_take in Hv.
    rewrite (arrange_perm rnd distinct) in Hv.
    apply Hel in Hv as [Hv Hne]. split; [done|].
    unfold optionValues in Hv. apply list_elem_of_fmap in Hv as (c & -> & Hc).
    apply list_elem_of_filter in Hc as [Hid Hc]. by exists c.
  - rewrite length_take, (arrange_perm rnd distinct). f_equal.
    apply Permutation_length, NoDup_Permutation;
      [done|apply NoDup_remove_dups|].
    intros v. rewrite Hel, elem_of_remove_dups, list_elem_of_filter. tauto.
Qed.


